(** * A verified model of [calculator.py]

    The calculator is a three stage pipeline: [ExpressionLexer.lex] turns a
    string into tokens, [ExpressionParser.parse_expr] turns tokens into an
    expression tree together with the number of tokens it used, and the
    [eval] methods of the tree compute a Python value.

    The three stages are embedded below function by function, under the
    names the Python source gives them, and the properties of the pipeline
    are proved about these definitions. *)

From Stdlib Require Import List String Ascii Bool Arith NArith ZArith Lia.
From Stdlib Require Import PrimFloat SpecFloat FloatOps.
Import ListNotations.

Local Open Scope string_scope.
Local Open Scope list_scope.

Set Implicit Arguments.

(* ================================================================== *)
(** * Python outcomes *)

(** The built-in exceptions the calculator can raise.  [RecursionError] is
    not one of them: the interpreter's limit on the depth of recursion is
    not part of the model, which follows the parser and [eval] to any
    depth. *)
Inductive exn : Type :=
| IndexError          (* [token_list[pos]] with [pos] out of range *)
| AssertionError      (* a failed [assert] *)
| ValueError          (* [raise ValueError(...)], and [float] on a bad text *)
| KeyError            (* [op_map[op]] with [op] not a key *)
| AttributeError      (* [getattr] on a name the object does not have *)
| TypeError           (* calling what is not callable, or on a bad argument *)
| ZeroDivisionError.  (* [float.__truediv__] by zero *)

(** What running a piece of Python gives: a value, a raised exception, or
    [OutOfFuel] when the recursion budget of the model was too small (the
    parser's functions are mutually recursive on positions, so they are
    given a budget; [parse_fuel_enough] below shows the budget of [parse] is
    never exhausted). *)
Inductive result (A : Type) : Type :=
| Ok (a : A)
| Raise (e : exn)
| OutOfFuel.

Arguments Ok {A} a.
Arguments Raise {A} e.
Arguments OutOfFuel {A}.

Definition bind {A B : Type} (r : result A) (k : A -> result B) : result B :=
  match r with
  | Ok a => k a
  | Raise e => Raise e
  | OutOfFuel => OutOfFuel
  end.

Declare Scope py_scope.
Delimit Scope py_scope with py.
Notation "x <- r ;; k" := (bind r (fun x => k))
  (at level 61, r at next level, right associativity) : py_scope.
Notation "' p <- r ;; k" := (bind r (fun x => let p := x in k))
  (at level 61, p pattern, r at next level, right associativity) : py_scope.
Local Open Scope py_scope.

(** [assert c]. *)
Definition py_assert (c : bool) : result unit :=
  if c then Ok tt else Raise AssertionError.

(* ================================================================== *)
(** * Characters

    A Python string is modelled as a [string] whose characters are the code
    points U+0000 to U+00FF.  [isnumeric] and [isalpha] are [str.isnumeric]
    and [str.isalpha] on one such character. *)

Definition code (v : ascii) : N := N_of_ascii v.

Definition between (lo hi n : N) : bool := (N.leb lo n && N.leb n hi)%bool.

(** Digits, and the superscripts and vulgar fractions of Latin-1. *)
Definition isnumeric (v : ascii) : bool :=
  let n := code v in
  (between 48 57 n || N.eqb n 178 || N.eqb n 179 || N.eqb n 185
   || between 188 190 n)%bool.

(** Letters: A-Z, a-z, and the letters of Latin-1. *)
Definition isalpha (v : ascii) : bool :=
  let n := code v in
  (between 65 90 n || between 97 122 n || N.eqb n 170 || N.eqb n 181
   || N.eqb n 186 || between 192 214 n || between 216 246 n
   || between 248 255 n)%bool.

(** The one-character string [v], as Python has it. *)
Definition str1 (v : ascii) : string := String v EmptyString.

(** [v in l] for a character [v] and a list of strings [l]. *)
Definition char_in (v : ascii) (l : list string) : bool :=
  existsb (String.eqb (str1 v)) l.

Definition dot_tokens : list string := ["."].
Definition bracket_tokens : list string := ["("; ")"].
Definition second_priority_tokens : list string := ["*"; "/"].
Definition third_priority_tokens : list string := ["+"; "-"].

(* ================================================================== *)
(** * Tokens *)

Inductive TokenType : Type :=
| DOT
| SIGN
| NUMBER
| BRACKET
| SECOND_PRIORITY_OP
| THIRD_PRIORITY_OP
| CONSTANT_OR_FUNCTION_NAME.

Definition TokenType_eqb (a b : TokenType) : bool :=
  match a, b with
  | DOT, DOT | SIGN, SIGN | NUMBER, NUMBER | BRACKET, BRACKET
  | SECOND_PRIORITY_OP, SECOND_PRIORITY_OP
  | THIRD_PRIORITY_OP, THIRD_PRIORITY_OP
  | CONSTANT_OR_FUNCTION_NAME, CONSTANT_OR_FUNCTION_NAME => true
  | _, _ => false
  end.

(** [t in l] for a token type. *)
Definition type_in (t : TokenType) (l : list TokenType) : bool :=
  existsb (TokenType_eqb t) l.

Record Token : Type := mkToken {
  token_str : string;
  token_type : TokenType
}.

Definition is_left_bracket (t : Token) : bool := String.eqb (token_str t) "(".
Definition is_right_bracket (t : Token) : bool := String.eqb (token_str t) ")".

(* ================================================================== *)
(** * The lexer: [ExpressionLexer] *)

Section ExpressionLexer.

(** The local variables of [lex] that live across iterations; [result_] is
    the list [result].  The source keeps [current_type] as an integer with
    [0] for "no token open"; [None] is that [0]. *)
Record lexer_state : Type := mkLexer {
  result_ : list Token;
  current_type : option TokenType;
  current_str : string
}.

Definition lexer_init : lexer_state :=
  {| result_ := []; current_type := None; current_str := "" |}.

(** The closure [push]: emit the open token, if there is one, and reset. *)
Definition push (st : lexer_state) : lexer_state :=
  {| result_ := match current_type st with
                | Some ty => result_ st ++ [mkToken (current_str st) ty]
                | None => result_ st
                end;
     current_type := None;
     current_str := "" |}.

(** [not result or result[-1].token_type in [SECOND_PRIORITY_OP,
    THIRD_PRIORITY_OP]]. *)
Definition sign_position (result : list Token) : bool :=
  match rev result with
  | [] => true
  | last :: _ =>
      type_in (token_type last) [SECOND_PRIORITY_OP; THIRD_PRIORITY_OP]
  end.

(** [current_str = v; current_type = ty] after a [push]. *)
Definition open_token (st : lexer_state) (v : ascii) (ty : TokenType)
  : lexer_state :=
  {| result_ := result_ st; current_type := Some ty; current_str := str1 v |}.

(** [current_str += v]. *)
Definition extend_token (st : lexer_state) (v : ascii) : lexer_state :=
  {| result_ := result_ st;
     current_type := current_type st;
     current_str := current_str st ++ str1 v |}.

(** One iteration of the [while] loop of [lex], on the character [v]. *)
Definition lex_step (st : lexer_state) (v : ascii) : lexer_state :=
  if (isnumeric v || char_in v dot_tokens)%bool then
    match current_type st with
    | Some NUMBER => extend_token st v
    | _ => open_token (push st) v NUMBER
    end
  else if isalpha v then
    match current_type st with
    | Some CONSTANT_OR_FUNCTION_NAME => extend_token st v
    | _ => open_token (push st) v CONSTANT_OR_FUNCTION_NAME
    end
  else if char_in v third_priority_tokens then
    let st1 := push st in
    if sign_position (result_ st1)
    then push (open_token st1 v SIGN)
    else push (open_token st1 v THIRD_PRIORITY_OP)
  else if char_in v second_priority_tokens then
    push (open_token (push st) v SECOND_PRIORITY_OP)
  else if char_in v bracket_tokens then
    push (open_token (push st) v BRACKET)
  else st.

(** The [while] loop of [lex] over the characters still to read. *)
Fixpoint lex_loop (st : lexer_state) (s : string) : lexer_state :=
  match s with
  | EmptyString => st
  | String v rest => lex_loop (lex_step st v) rest
  end.

(** [ExpressionLexer(string).lex()]. *)
Definition lex (s : string) : list Token :=
  result_ (push (lex_loop lexer_init s)).

End ExpressionLexer.

(* ================================================================== *)
(** * Expression trees *)

(** The four subclasses of [BaseExpression]. *)
Inductive expr : Type :=
| NumberExpression (value : string)
| BinaryExpression (expr1 : expr) (op : string) (expr2 : expr)
| ConstantExpression (name : string)
| FunctionExpression (func_name : string) (e : expr).

(* ================================================================== *)
(** * The parser: [ExpressionParser]

    Positions are natural numbers: the parser is entered at a position of
    the caller and only ever adds to it.  Every function returns the tree
    and the number of tokens it reports as used.  The interpreter's limit on
    the depth of recursion is not part of the model. *)

Section ExpressionParser.

Variable token_list : list Token.

(** [self.token_list[pos]]. *)
Definition token_at (pos : nat) : result Token :=
  match nth_error token_list pos with
  | Some t => Ok t
  | None => Raise IndexError
  end.

Definition parse_number (pos : nat) : result (expr * nat) :=
  current_token <- token_at pos ;;
  Ok (NumberExpression (token_str current_token), 1).

(** The functions of the parser call each other on positions that grow;
    [fuel] bounds the depth of the calls, one unit per call or loop
    iteration. *)
Fixpoint parse_first_priority (fuel pos : nat) {struct fuel}
  : result (expr * nat) :=
  match fuel with
  | O => OutOfFuel
  | S fuel =>
      current_token <- token_at pos ;;
      if TokenType_eqb (token_type current_token) BRACKET then
        parse_bracket fuel pos
      else if type_in (token_type current_token) [DOT; NUMBER] then
        parse_number pos
      else if TokenType_eqb (token_type current_token)
                            CONSTANT_OR_FUNCTION_NAME then
        parse_constant_or_function fuel pos
      else if TokenType_eqb (token_type current_token) SIGN then
        parse_sign fuel pos
      else Raise ValueError
  end

with parse_sign (fuel pos : nat) {struct fuel} : result (expr * nat) :=
  match fuel with
  | O => OutOfFuel
  | S fuel =>
      current_token <- token_at pos ;;
      '(result, length) <- parse_first_priority fuel (pos + 1) ;;
      Ok (BinaryExpression (NumberExpression "0") (token_str current_token)
                           result,
          length + 1)
  end

with parse_bracket (fuel pos : nat) {struct fuel} : result (expr * nat) :=
  match fuel with
  | O => OutOfFuel
  | S fuel =>
      current_token <- token_at pos ;;
      _ <- py_assert (TokenType_eqb (token_type current_token) BRACKET) ;;
      '(e, length) <- parse_expr fuel (pos + 1) ;;
      _ <- py_assert (TokenType_eqb (token_type current_token) BRACKET) ;;
      Ok (e, length + 2)
  end

with parse_constant_or_function (fuel pos : nat) {struct fuel}
  : result (expr * nat) :=
  match fuel with
  | O => OutOfFuel
  | S fuel =>
      current_token <- token_at pos ;;
      let fn := token_str current_token in
      if Nat.eqb (pos + 1) (List.length token_list) then
        Ok (ConstantExpression fn, 1)
      else
        current_token <- token_at (pos + 1) ;;
        if is_left_bracket current_token then
          '(e, length) <- parse_bracket fuel (pos + 1) ;;
          Ok (FunctionExpression fn e, 1 + length)
        else Ok (ConstantExpression fn, 1)
  end

with parse_second_priority (fuel pos : nat) (left_expr : expr) {struct fuel}
  : result (expr * nat) :=
  match fuel with
  | O => OutOfFuel
  | S fuel =>
      current_token <- token_at pos ;;
      '(right_expr, length) <- parse_first_priority fuel (pos + 1) ;;
      Ok (BinaryExpression left_expr (token_str current_token) right_expr,
          length + 1)
  end

with parse_third_priority (fuel pos : nat) (left_expr : expr) {struct fuel}
  : result (expr * nat) :=
  match fuel with
  | O => OutOfFuel
  | S fuel =>
      third_priority_op_token <- token_at pos ;;
      '(current_expr, length) <- parse_first_priority fuel (pos + 1) ;;
      '(current_expr, current_length) <-
         parse_third_priority_loop fuel pos current_expr length ;;
      Ok (BinaryExpression left_expr (token_str third_priority_op_token)
                           current_expr,
          current_length + 1)
  end

(** The [while] loop of [parse_third_priority], entered with the values of
    [current_expr] and [current_length]; it returns their final values. *)
with parse_third_priority_loop (fuel pos : nat) (current_expr : expr)
       (current_length : nat) {struct fuel} : result (expr * nat) :=
  match fuel with
  | O => OutOfFuel
  | S fuel =>
      if Nat.ltb (pos + current_length + 1) (List.length token_list) then
        current_token <- token_at (current_length + pos + 1) ;;
        if TokenType_eqb (token_type current_token) SECOND_PRIORITY_OP then
          '(current_expr, length) <-
             parse_second_priority fuel (current_length + pos + 1)
                                   current_expr ;;
          parse_third_priority_loop fuel pos current_expr
                                    (current_length + length)
        else Ok (current_expr, current_length)
      else Ok (current_expr, current_length)
  end

with parse_expr (fuel pos : nat) {struct fuel} : result (expr * nat) :=
  match fuel with
  | O => OutOfFuel
  | S fuel =>
      '(current_expr, length) <- parse_first_priority fuel pos ;;
      parse_expr_loop fuel pos current_expr length
  end

(** The [while] loop of [parse_expr]. *)
with parse_expr_loop (fuel pos : nat) (current_expr : expr)
       (current_length : nat) {struct fuel} : result (expr * nat) :=
  match fuel with
  | O => OutOfFuel
  | S fuel =>
      if Nat.ltb (pos + current_length) (List.length token_list) then
        current_token <- token_at (current_length + pos) ;;
        if TokenType_eqb (token_type current_token) THIRD_PRIORITY_OP then
          '(current_expr, length) <-
             parse_third_priority fuel (current_length + pos) current_expr ;;
          parse_expr_loop fuel pos current_expr (current_length + length)
        else if TokenType_eqb (token_type current_token)
                              SECOND_PRIORITY_OP then
          '(current_expr, length) <-
             parse_second_priority fuel (current_length + pos) current_expr ;;
          parse_expr_loop fuel pos current_expr (current_length + length)
        else Ok (current_expr, current_length)
      else Ok (current_expr, current_length)
  end.

(** A budget that is never exhausted, see [parse_fuel_enough]. *)
Definition parse_fuel : nat := 3 * List.length token_list + 5.

(** [ExpressionParser(token_list).parse_expr(pos)]. *)
Definition parse (pos : nat) : result (expr * nat) :=
  parse_expr parse_fuel pos.

End ExpressionParser.


(* ================================================================== *)
(** * Python values and the [math] module

    [eval] computes with Python floats, which are IEEE-754 binary64 numbers:
    [float] below is that type and its operations round as the hardware
    does.  Everything else [eval] can meet (a function object taken from
    [math], [NotImplemented], an [int] returned by a library function) is an
    [object] of the runtime the calculator runs on. *)

Inductive value (object : Type) : Type :=
| VFloat (f : float)
| VObject (o : object).

Arguments VFloat {object} f.
Arguments VObject {object} o.

(** The four methods [op_map] can name. *)
Inductive method : Type :=
| dunder_add
| dunder_sub
| dunder_mul
| dunder_truediv.

(** The part of Python the evaluator relies on and the source does not
    define. *)
Class PyRuntime (object : Type) : Type := {
  (** [getattr(math, name)]; [None] when [math] has no such attribute. *)
  math_getattr : string -> option (value object);
  (** [getattr(o, m)] on an object that is not a float: the bound method,
      or [None] when [o] has no such attribute. *)
  object_getattr :
    object -> method -> option (value object -> result (value object));
  (** [float.m(a, o)] on an argument that is not a float. *)
  float_method_object : method -> float -> object -> result (value object);
  (** [o(v)]. *)
  object_call : object -> value object -> result (value object)
}.

(** [op_map]. *)
Definition op_map : list (string * method) :=
  [("+", dunder_add); ("-", dunder_sub); ("*", dunder_mul);
   ("/", dunder_truediv)].

(** [d[key]] on a dictionary with string keys. *)
Fixpoint dict_get {A : Type} (d : list (string * A)) (key : string)
  : result A :=
  match d with
  | [] => Raise KeyError
  | (k, a) :: rest => if String.eqb key k then Ok a else dict_get rest key
  end.

(** ** [float(text)]

    The texts the parser hands to [float] are ["0"] and the texts of number
    tokens, which are runs of points and [isnumeric] characters: decimal
    digits, and the superscripts and fractions of Latin-1, which [float]
    refuses.  On these texts [py_float] is Python's [float]: the text must
    hold decimal digits and points only, at least one digit and at most one
    point, and its value is rounded to the nearest binary64 number, ties to
    even; otherwise [float] raises [ValueError]. *)

Definition digit_of (v : ascii) : option N :=
  let n := code v in
  if between 48 57 n then Some (n - 48)%N else None.

(** Reads [s] after the digits [m] (a number), of which [digits] were read
    and, once the point is passed, [frac] came after it.  Returns the whole
    digit string as a number and the count of digits after the point. *)
Fixpoint scan_decimal (s : string) (m : N) (digits : nat) (frac : option nat)
  : option (N * nat) :=
  match s with
  | EmptyString =>
      match digits with
      | O => None
      | S _ => Some (m, match frac with Some k => k | None => O end)
      end
  | String v rest =>
      if Ascii.eqb v "."%char then
        match frac with
        | None => scan_decimal rest m digits (Some O)
        | Some _ => None
        end
      else
        match digit_of v with
        | Some d => scan_decimal rest (10 * m + d)%N (S digits)
                                 (option_map S frac)
        | None => None
        end
  end.

(** The binary64 number nearest to [m / 10^k]. *)
Definition float_of_decimal (m : N) (k : nat) : float :=
  match m with
  | N0 => PrimFloat.zero
  | Npos p =>
      SF2Prim (SFdiv prec emax
                 (S754_finite false p 0)
                 (S754_finite false (Z.to_pos (10 ^ Z.of_nat k)) 0))
  end.

Definition py_float (text : string) : result float :=
  match scan_decimal text 0%N O None with
  | Some (m, k) => Ok (float_of_decimal m k)
  | None => Raise ValueError
  end.

(* ================================================================== *)
(** * The evaluator: the [eval] methods *)

Section Evaluator.

Context {object : Type} {runtime : PyRuntime object}.

Local Abbreviation value := (value object).

(** [float.__add__], [__sub__], [__mul__] and [__truediv__] of the float
    [a], applied to [v]. *)
Definition float_method (m : method) (a : float) (v : value) : result value :=
  match v with
  | VFloat b =>
      match m with
      | dunder_add => Ok (VFloat (a + b)%float)
      | dunder_sub => Ok (VFloat (a - b)%float)
      | dunder_mul => Ok (VFloat (a * b)%float)
      | dunder_truediv =>
          if PrimFloat.eqb b PrimFloat.zero then Raise ZeroDivisionError
          else Ok (VFloat (a / b)%float)
      end
  | VObject o => float_method_object m a o
  end.

(** [getattr(v, m)] for a method name out of [op_map]: the bound method. *)
Definition getattr (v : value) (m : method) : result (value -> result value) :=
  match v with
  | VFloat a => Ok (float_method m a)
  | VObject o =>
      match object_getattr o m with
      | Some f => Ok f
      | None => Raise AttributeError
      end
  end.

(** [getattr(math, name)]. *)
Definition getattr_math (name : string) : result value :=
  match math_getattr name with
  | Some v => Ok v
  | None => Raise AttributeError
  end.

(** [f(v)]: a float is not callable. *)
Definition call (f v : value) : result value :=
  match f with
  | VFloat _ => Raise TypeError
  | VObject o => object_call o v
  end.

(** The method [eval] of each of the four classes.  Python evaluates
    [getattr(self.expr1.eval(), op_map[self.op])(self.expr2.eval())] from
    left to right: the first operand, the dictionary access, the attribute,
    the second operand, the call; in [getattr(math, name)(self.expr.eval())]
    the attribute comes before the argument.  [eval] calls itself once for
    each level of the tree; the interpreter's limit on that depth is not
    part of the model. *)
Fixpoint eval (e : expr) : result value :=
  match e with
  | NumberExpression v =>
      f <- py_float v ;;
      Ok (VFloat f)
  | BinaryExpression expr1 op expr2 =>
      v1 <- eval expr1 ;;
      m <- dict_get op_map op ;;
      f <- getattr v1 m ;;
      v2 <- eval expr2 ;;
      f v2
  | ConstantExpression name => getattr_math name
  | FunctionExpression func_name arg =>
      f <- getattr_math func_name ;;
      v <- eval arg ;;
      call f v
  end.

(** The last two lines of the module, on the string [s]:
    [e, _ = ExpressionParser(ExpressionLexer(s).lex()).parse_expr(0)] and
    then [e.eval()]. *)
Definition calculate (s : string) : result value :=
  '(e, _) <- parse (lex s) 0 ;;
  eval e.

End Evaluator.

(** ** A runtime to compute with

    The core of CPython's [math]: its five float constants and the two
    functions whose results binary64 arithmetic determines, [sqrt] and
    [fabs].  Function objects and [NotImplemented] have none of the four
    arithmetic methods, and a float method given one of them answers
    [NotImplemented].  The other names of [math] ([sin], [log] and the like)
    are not in this runtime: it serves to compute examples, and what holds
    of [math] as a whole is stated on every runtime. *)

Inductive core_object : Type :=
| math_sqrt
| math_fabs
| NotImplemented.

Definition core_math_getattr (name : string) : option (value core_object) :=
  if String.eqb name "pi" then Some (VFloat 0x1.921fb54442d18p+1%float)
  else if String.eqb name "e" then Some (VFloat 0x1.5bf0a8b145769p+1%float)
  else if String.eqb name "tau" then Some (VFloat 0x1.921fb54442d18p+2%float)
  else if String.eqb name "inf" then Some (VFloat infinity)
  else if String.eqb name "nan" then Some (VFloat nan)
  else if String.eqb name "sqrt" then Some (VObject math_sqrt)
  else if String.eqb name "fabs" then Some (VObject math_fabs)
  else None.

Definition core_object_call (o : core_object) (v : value core_object)
  : result (value core_object) :=
  match o, v with
  | math_sqrt, VFloat x =>
      if PrimFloat.ltb x PrimFloat.zero then Raise ValueError
      else Ok (VFloat (PrimFloat.sqrt x))
  | math_fabs, VFloat x => Ok (VFloat (PrimFloat.abs x))
  | _, _ => Raise TypeError
  end.

#[export] Instance core_runtime : PyRuntime core_object := {
  math_getattr := core_math_getattr;
  object_getattr := fun _ _ => None;
  float_method_object := fun _ _ _ => Ok (VObject NotImplemented);
  object_call := core_object_call
}.


(* ================================================================== *)
(** * Notions used in the properties *)

(** ** Of the lexer *)

(** No rule of [lex] matches the character [v]. *)
Definition unmatched (v : ascii) : bool :=
  negb (isnumeric v || char_in v dot_tokens || isalpha v
        || char_in v third_priority_tokens
        || char_in v second_priority_tokens
        || char_in v bracket_tokens).

(** The tokens in [result] and the open token are well formed: no empty
    text and no [DOT]. *)
Definition token_ok (t : Token) : Prop :=
  token_str t <> "" /\ token_type t <> DOT.

Definition lexer_ok (st : lexer_state) : Prop :=
  Forall token_ok (result_ st) /\
  match current_type st with
  | Some ty => current_str st <> "" /\ ty <> DOT
  | None => True
  end.

(** ** Of the parser's budget *)

(** [r] is [OutOfFuel], or it is [r']. *)
Definition refines {A : Type} (r r' : result A) : Prop :=
  r = OutOfFuel \/ r = r'.

(** ** Of what the parser looks at *)

Section Agreement.

Variables l1 l2 : list Token.

(** The two lists hold the same tokens, or none, at every position up to
    and including [k]. *)
Definition agree (k : nat) : Prop :=
  forall i, i <= k -> nth_error l1 i = nth_error l2 i.

(** On [l2], every function of the parser gives the answers it gives on
    [l1], wherever the two lists agree up to the position the answer
    reports; the loop of [parse_third_priority], whose count does not
    include the operator its caller stands on, is one position ahead. *)
Definition same_answers (fuel : nat) : Prop :=
  (forall pos e n,
      parse_first_priority l1 fuel pos = Ok (e, n) -> agree (pos + n) ->
      parse_first_priority l2 fuel pos = Ok (e, n)) /\
  (forall pos e n,
      parse_sign l1 fuel pos = Ok (e, n) -> agree (pos + n) ->
      parse_sign l2 fuel pos = Ok (e, n)) /\
  (forall pos e n,
      parse_bracket l1 fuel pos = Ok (e, n) -> agree (pos + n) ->
      parse_bracket l2 fuel pos = Ok (e, n)) /\
  (forall pos e n,
      parse_constant_or_function l1 fuel pos = Ok (e, n) ->
      agree (pos + n) ->
      parse_constant_or_function l2 fuel pos = Ok (e, n)) /\
  (forall pos l e n,
      parse_second_priority l1 fuel pos l = Ok (e, n) -> agree (pos + n) ->
      parse_second_priority l2 fuel pos l = Ok (e, n)) /\
  (forall pos l e n,
      parse_third_priority l1 fuel pos l = Ok (e, n) -> agree (pos + n) ->
      parse_third_priority l2 fuel pos l = Ok (e, n)) /\
  (forall pos e0 n0 e n,
      parse_third_priority_loop l1 fuel pos e0 n0 = Ok (e, n) ->
      agree (pos + n + 1) ->
      parse_third_priority_loop l2 fuel pos e0 n0 = Ok (e, n)) /\
  (forall pos e n,
      parse_expr l1 fuel pos = Ok (e, n) -> agree (pos + n) ->
      parse_expr l2 fuel pos = Ok (e, n)) /\
  (forall pos e0 n0 e n,
      parse_expr_loop l1 fuel pos e0 n0 = Ok (e, n) -> agree (pos + n) ->
      parse_expr_loop l2 fuel pos e0 n0 = Ok (e, n)).

End Agreement.

(** ** Of well-formed expressions *)

Definition lparen : Token := mkToken "(" BRACKET.
Definition rparen : Token := mkToken ")" BRACKET.

(** A binary operator token, as the lexer makes them. *)
Definition binary_operator (op : Token) : Prop :=
  (token_type op = SECOND_PRIORITY_OP /\
   In (token_str op) second_priority_tokens) \/
  (token_type op = THIRD_PRIORITY_OP /\
   In (token_str op) third_priority_tokens).

(** The token lists that spell an operand and an expression:
    an operand is a number, a constant, a function applied to an expression
    in brackets, an expression in brackets, or a signed operand; an
    expression is a chain of operands separated by binary operators. *)
Inductive operand : list Token -> Prop :=
| operand_number t :
    token_type t = NUMBER -> operand [t]
| operand_constant t :
    token_type t = CONSTANT_OR_FUNCTION_NAME -> operand [t]
| operand_call t inner :
    token_type t = CONSTANT_OR_FUNCTION_NAME ->
    expression inner ->
    operand (t :: lparen :: inner ++ [rparen])
| operand_group inner :
    expression inner ->
    operand (lparen :: inner ++ [rparen])
| operand_signed t ts :
    token_type t = SIGN -> operand ts -> operand (t :: ts)
with expression : list Token -> Prop :=
| expression_operand ts :
    operand ts -> expression ts
| expression_binary ts op rest :
    operand ts -> binary_operator op -> expression rest ->
    expression (ts ++ op :: rest).

Scheme operand_ind2 := Minimality for operand Sort Prop
  with expression_ind2 := Minimality for expression Sort Prop.
Combined Scheme operand_expression_ind from operand_ind2, expression_ind2.

(** What may follow an operand, and what may follow an expression. *)
Definition follows (post : list Token) : Prop :=
  match post with
  | [] => True
  | t :: _ => is_left_bracket t = false
  end.

Definition ends (post : list Token) : Prop :=
  match post with
  | [] => True
  | t :: _ => token_type t = BRACKET /\ is_left_bracket t = false
  end.

(** [ts] is read whole as an operand, wherever it stands. *)
Definition operand_read (ts : list Token) : Prop :=
  forall tl pre post pos,
    tl = pre ++ ts ++ post -> List.length pre = pos -> follows post ->
    exists fuel e,
      parse_first_priority tl fuel pos = Ok (e, List.length ts).

Definition expression_read (ts : list Token) : Prop :=
  forall tl pre post pos,
    tl = pre ++ ts ++ post -> List.length pre = pos -> ends post ->
    exists fuel e, parse_expr tl fuel pos = Ok (e, List.length ts).

(** The operators and operands after the first operand of a chain. *)
Fixpoint chain (items : list (Token * list Token)) : list Token :=
  match items with
  | [] => []
  | (op, ts) :: rest => op :: ts ++ chain rest
  end.

Definition item_read (item : Token * list Token) : Prop :=
  binary_operator (fst item) /\ operand_read (snd item).

(** What stops the loop of [parse_third_priority]. *)
Definition no_second (post : list Token) : Prop :=
  match post with
  | [] => True
  | t :: _ => token_type t <> SECOND_PRIORITY_OP /\ is_left_bracket t = false
  end.

(** The items at the head of a chain whose operators are of the second
    priority, and the items after them. *)
Fixpoint second_run (items : list (Token * list Token))
  : list (Token * list Token) :=
  match items with
  | [] => []
  | (op, ts) :: rest =>
      if TokenType_eqb (token_type op) SECOND_PRIORITY_OP
      then (op, ts) :: second_run rest
      else []
  end.

Fixpoint after_run (items : list (Token * list Token))
  : list (Token * list Token) :=
  match items with
  | [] => []
  | (op, ts) :: rest =>
      if TokenType_eqb (token_type op) SECOND_PRIORITY_OP
      then after_run rest
      else items
  end.

(** ** Of the texts of the tokens *)

(** The characters of [s] that match a rule of the lexer. *)
Fixpoint keep_matched (s : string) : string :=
  match s with
  | EmptyString => EmptyString
  | String v rest =>
      if unmatched v then keep_matched rest else String v (keep_matched rest)
  end.

(** The texts of the tokens, one after the other. *)
Fixpoint texts (l : list Token) : string :=
  match l with
  | [] => EmptyString
  | t :: rest => (token_str t ++ texts rest)%string
  end.

(** The text the lexer holds: the tokens emitted and the open token. *)
Definition lexer_text (st : lexer_state) : string :=
  (texts (result_ st) ++ current_str st)%string.

(** No text is held outside an open token. *)
Definition lexer_closed (st : lexer_state) : Prop :=
  current_type st = None -> current_str st = "".

(** Every character of [s] satisfies [p]. *)
Fixpoint string_forall (p : ascii -> bool) (s : string) : bool :=
  match s with
  | EmptyString => true
  | String v rest => (p v && string_forall p rest)%bool
  end.

(** The characters that go into a number. *)
Definition number_char (v : ascii) : bool :=
  (isnumeric v || char_in v dot_tokens)%bool.

(** A word: a text that is not empty, of characters that satisfy [p]. *)
Definition word (p : ascii -> bool) (text : string) : Prop :=
  text <> "" /\ string_forall p text = true.

(** The text a token of each type has when the lexer made it. *)
Definition token_shape (t : Token) : Prop :=
  match token_type t with
  | NUMBER => word number_char (token_str t)
  | CONSTANT_OR_FUNCTION_NAME => word isalpha (token_str t)
  | SIGN | THIRD_PRIORITY_OP => In (token_str t) third_priority_tokens
  | SECOND_PRIORITY_OP => In (token_str t) second_priority_tokens
  | BRACKET => In (token_str t) bracket_tokens
  | DOT => False
  end.

(** The tokens emitted have their shape, and the open token, if any, is a
    number or a name in the making. *)
Definition lexer_shaped (st : lexer_state) : Prop :=
  Forall token_shape (result_ st) /\
  match current_type st with
  | None => True
  | Some NUMBER => word number_char (current_str st)
  | Some CONSTANT_OR_FUNCTION_NAME => word isalpha (current_str st)
  | Some _ => False
  end.

(** Not a letter. *)
Definition no_letter (v : ascii) : bool := negb (isalpha v).

(** ** Of the order of the tokens *)

(** The type of the last token of the list. *)
Definition last_type (l : list Token) : option TokenType :=
  option_map token_type (nth_error l (Nat.pred (List.length l))).

(** A number or a name. *)
Definition word_type (ty : TokenType) : bool :=
  type_in ty [NUMBER; CONSTANT_OR_FUNCTION_NAME].

(** No number stands right after a number, and no name right after a
    name. *)
Definition separated (l : list Token) : Prop :=
  forall i t1 t2,
    nth_error l i = Some t1 -> nth_error l (S i) = Some t2 ->
    token_type t1 = token_type t2 -> word_type (token_type t1) = false.

(** The tokens emitted are separated, and the open token, a number or a
    name, is not of the type of the last one emitted. *)
Definition lexer_separated (st : lexer_state) : Prop :=
  separated (result_ st) /\
  match current_type st with
  | None =>
      forall ty, last_type (result_ st) = Some ty -> word_type ty = false
  | Some ty =>
      word_type ty = true /\ last_type (result_ st) <> Some ty
  end.

(** Two states that differ in the tokens emitted long ago only: they hold
    the same open token and the same tokens [recent] after [old] and
    [old'], and a sign would be told in the same way in both. *)
Definition same_future (old old' recent : list Token) (st st' : lexer_state)
  : Prop :=
  result_ st = old ++ recent /\ result_ st' = old' ++ recent /\
  current_type st = current_type st' /\ current_str st = current_str st' /\
  (recent = [] -> current_type st = None ->
   sign_position old = sign_position old').

(** ** Of the answers of the parser *)

(** The number of bracket tokens from [pos] on. *)
Definition brackets_from (token_list : list Token) (pos : nat) : nat :=
  List.length
    (filter (fun t => TokenType_eqb (token_type t) BRACKET)
            (skipn pos token_list)).

(** The bound of an answer at [pos]: the end of the list, and one more
    for each bracket from [pos] on. *)
Definition token_bound (token_list : list Token) (pos : nat) : nat :=
  List.length token_list + brackets_from token_list pos.

(** The exceptions an ill-formed list of tokens is answered with. *)
Definition parse_error (e : exn) : Prop := e = IndexError \/ e = ValueError.

(** The types of the tokens that stand for an operator of a tree. *)
Definition operator_types : list TokenType :=
  [SIGN; SECOND_PRIORITY_OP; THIRD_PRIORITY_OP].

Section Provenance.

Variable token_list : list Token.

(** [text] is the text of a token of the list whose type is in [types]. *)
Definition token_text (types : list TokenType) (text : string) : Prop :=
  exists t,
    In t token_list /\ type_in (token_type t) types = true /\
    token_str t = text.

(** The numbers of the tree are texts of number tokens, or the ["0"] that
    a sign is given for left operand; its operators are texts of sign and
    operator tokens; its names are texts of name tokens. *)
Fixpoint from_tokens (e : expr) : Prop :=
  match e with
  | NumberExpression v => v = "0" \/ token_text [DOT; NUMBER] v
  | BinaryExpression expr1 op expr2 =>
      token_text [SIGN; SECOND_PRIORITY_OP; THIRD_PRIORITY_OP] op /\
      from_tokens expr1 /\ from_tokens expr2
  | ConstantExpression name => token_text [CONSTANT_OR_FUNCTION_NAME] name
  | FunctionExpression name arg =>
      token_text [CONSTANT_OR_FUNCTION_NAME] name /\ from_tokens arg
  end.

(** The token at [pos], if there is one, has a type in [types]. *)
Definition typed_at (pos : nat) (types : list TokenType) : Prop :=
  forall t, token_at token_list pos = Ok t ->
            type_in (token_type t) types = true.

End Provenance.

(** ** Of the tree of an expression *)

(** An operator of products, and an operator of sums, as the lexer makes
    them. *)
Definition product_operator (op : Token) : Prop :=
  token_type op = SECOND_PRIORITY_OP /\
  In (token_str op) second_priority_tokens.

Definition sum_operator (op : Token) : Prop :=
  token_type op = THIRD_PRIORITY_OP /\
  In (token_str op) third_priority_tokens.

(** The usual grammar of expressions, with the tree each token list
    stands for: products bind tighter than sums, both associate to the
    left, a sign applies to the operand that follows it. *)
Inductive operand_tree : list Token -> expr -> Prop :=
| tree_number t :
    token_type t = NUMBER ->
    operand_tree [t] (NumberExpression (token_str t))
| tree_constant t :
    token_type t = CONSTANT_OR_FUNCTION_NAME ->
    operand_tree [t] (ConstantExpression (token_str t))
| tree_call t inner e :
    token_type t = CONSTANT_OR_FUNCTION_NAME ->
    expression_tree inner e ->
    operand_tree (t :: lparen :: inner ++ [rparen])
                 (FunctionExpression (token_str t) e)
| tree_group inner e :
    expression_tree inner e ->
    operand_tree (lparen :: inner ++ [rparen]) e
| tree_signed t ts e :
    token_type t = SIGN ->
    operand_tree ts e ->
    operand_tree (t :: ts)
                 (BinaryExpression (NumberExpression "0") (token_str t) e)
with term_tree : list Token -> expr -> Prop :=
| tree_operand ts e :
    operand_tree ts e -> term_tree ts e
| tree_product ts e op ts' e' :
    term_tree ts e -> product_operator op -> operand_tree ts' e' ->
    term_tree (ts ++ op :: ts') (BinaryExpression e (token_str op) e')
with expression_tree : list Token -> expr -> Prop :=
| tree_term ts e :
    term_tree ts e -> expression_tree ts e
| tree_sum ts e op ts' e' :
    expression_tree ts e -> sum_operator op -> term_tree ts' e' ->
    expression_tree (ts ++ op :: ts') (BinaryExpression e (token_str op) e').

Scheme operand_tree_ind3 := Minimality for operand_tree Sort Prop
  with term_tree_ind3 := Minimality for term_tree Sort Prop
  with expression_tree_ind3 := Minimality for expression_tree Sort Prop.
Combined Scheme tree_ind
  from operand_tree_ind3, term_tree_ind3, expression_tree_ind3.

(** [ts] is read as the operand [e], wherever it stands. *)
Definition operand_parsed (ts : list Token) (e : expr) : Prop :=
  forall tl pre post pos,
    tl = pre ++ ts ++ post -> List.length pre = pos -> follows post ->
    exists fuel,
      parse_first_priority tl fuel pos = Ok (e, List.length ts).

(** [parse_expr] at the start of the term [ts] gives what its loop gives
    once it has read [ts] as [e]; and so does [parse_third_priority] on
    the operator before [ts], for its own loop. *)
Definition term_parsed (ts : list Token) (e : expr) : Prop :=
  (forall tl pre post pos r,
      tl = pre ++ ts ++ post -> List.length pre = pos -> follows post ->
      (exists fuel,
          parse_expr_loop tl fuel pos e (List.length ts) = Ok r) ->
      exists fuel, parse_expr tl fuel pos = Ok r) /\
  (forall tl pre post pos op left e2 n2,
      tl = pre ++ ts ++ post -> List.length pre = pos + 1 ->
      token_at tl pos = Ok op -> follows post ->
      (exists fuel,
          parse_third_priority_loop tl fuel pos e (List.length ts)
          = Ok (e2, n2)) ->
      exists fuel,
        parse_third_priority tl fuel pos left =
        Ok (BinaryExpression left (token_str op) e2, n2 + 1)).

Definition expression_parsed (ts : list Token) (e : expr) : Prop :=
  forall tl pre post pos r,
    tl = pre ++ ts ++ post -> List.length pre = pos -> no_second post ->
    (exists fuel, parse_expr_loop tl fuel pos e (List.length ts) = Ok r) ->
    exists fuel, parse_expr tl fuel pos = Ok r.

(** ** Of the evaluator *)

(** A tree of the four operators and of numbers whose texts are made of
    numeric characters and points, as the texts of the number tokens of
    [lex] and the ["0"] of [parse_sign] are. *)
Fixpoint arithmetic (e : expr) : Prop :=
  match e with
  | NumberExpression v => string_forall number_char v = true
  | BinaryExpression expr1 op expr2 =>
      In op ["+"; "-"; "*"; "/"] /\ arithmetic expr1 /\ arithmetic expr2
  | ConstantExpression _ => False
  | FunctionExpression _ _ => False
  end.

(* ================================================================== *)
(** * The lexer, character by character *)

Section LexerFacts.

Lemma lex_loop_app (a b : string) (st : lexer_state) :
  lex_loop st (a ++ b) = lex_loop (lex_loop st a) b.
Proof.
  revert st; induction a as [|v a IH]; intro st; simpl.
  - reflexivity.
  - apply IH.
Qed.

Lemma lex_after_char (pre post : string) (v : ascii) :
  lex (pre ++ String v post) =
  result_ (push (lex_loop (lex_step (lex_loop lexer_init pre) v) post)).
Proof.
  unfold lex. now rewrite lex_loop_app.
Qed.

Lemma lex_step_unmatched (v : ascii) (st : lexer_state) :
  unmatched v = true -> lex_step st v = st.
Proof.
  unfold unmatched, lex_step; intro H.
  apply negb_true_iff in H.
  apply orb_false_elim in H; destruct H as [H Hb].
  apply orb_false_elim in H; destruct H as [H Hs].
  apply orb_false_elim in H; destruct H as [H Ht].
  apply orb_false_elim in H; destruct H as [H Ha].
  rewrite H, Ha, Ht, Hs, Hb. reflexivity.
Qed.

(** [push] and [lex_step] only ever append to [result]. *)
Lemma push_appends (st : lexer_state) :
  exists l, result_ (push st) = result_ st ++ l.
Proof.
  unfold push; simpl; destruct (current_type st).
  - eexists; reflexivity.
  - exists []; now rewrite app_nil_r.
Qed.

Lemma lex_step_appends (st : lexer_state) (v : ascii) :
  exists l, result_ (lex_step st v) = result_ st ++ l.
Proof.
  destruct (push_appends st) as [l Hl].
  assert (Hid : exists l0, result_ st = result_ st ++ l0)
    by (exists []; now rewrite app_nil_r).
  assert (Hpp : forall ty,
             exists l0, result_ (push (open_token (push st) v ty))
                        = result_ st ++ l0).
  { intro ty.
    destruct (push_appends (open_token (push st) v ty)) as [l1 H1].
    change (result_ (open_token (push st) v ty)) with (result_ (push st))
      in H1.
    rewrite Hl, <- app_assoc in H1. eauto. }
  unfold lex_step.
  repeat match goal with
         | |- context [if ?c then _ else _] => destruct c
         | |- context [match current_type st with _ => _ end] =>
             destruct (current_type st) as [[]|]
         end;
    first [exact Hid | (exists l; exact Hl) | apply Hpp].
Qed.

Lemma lex_loop_appends (s : string) (st : lexer_state) :
  exists l, result_ (lex_loop st s) = result_ st ++ l.
Proof.
  revert st; induction s as [|v s IH]; intro st; simpl.
  - exists []; now rewrite app_nil_r.
  - destruct (IH (lex_step st v)) as [l1 H1].
    destruct (lex_step_appends st v) as [l2 H2].
    exists (l2 ++ l1). now rewrite H1, H2, app_assoc.
Qed.

(** After a character of [third_priority_tokens], the state holds the
    tokens of the text read so far, then the token of that character, and
    no open token. *)
Lemma lex_step_third (st : lexer_state) (v : ascii) :
  char_in v third_priority_tokens = true ->
  lex_step st v =
  let emitted := result_ (push st) in
  {| result_ := emitted ++
                [mkToken (str1 v)
                   (if sign_position emitted then SIGN
                    else THIRD_PRIORITY_OP)];
     current_type := None;
     current_str := "" |}.
Proof.
  intro H.
  assert (Hv : v = "+"%char \/ v = "-"%char).
  { destruct v as [[] [] [] [] [] [] [] []];
      try (exfalso; vm_compute in H; discriminate H); auto. }
  destruct Hv; subst v; unfold lex_step; simpl;
    destruct (sign_position _); reflexivity.
Qed.

(** The token of a ['+'] or ['-'] comes right after the tokens of the text
    before it, with the kind that [sign_position] tells. *)
Lemma lex_third_char (pre post : string) (v : ascii) :
  char_in v third_priority_tokens = true ->
  exists rest,
    lex (pre ++ String v post) =
    lex pre ++
    mkToken (str1 v)
            (if sign_position (lex pre) then SIGN else THIRD_PRIORITY_OP)
    :: rest.
Proof.
  intro Hv.
  rewrite lex_after_char, lex_step_third by exact Hv.
  cbv zeta. fold (lex pre).
  set (kind := if sign_position (lex pre) then SIGN else THIRD_PRIORITY_OP).
  set (st := {| result_ := lex pre ++ [mkToken (str1 v) kind];
                current_type := None; current_str := "" |}).
  destruct (lex_loop_appends post st) as [l1 H1].
  destruct (push_appends (lex_loop st post)) as [l2 H2].
  exists (l1 ++ l2).
  rewrite H2, H1. subst st. cbn [result_].
  now rewrite <- !app_assoc.
Qed.

Lemma sign_position_spec (result : list Token) :
  sign_position result = true <->
  result = [] \/
  exists before last,
    result = before ++ [last] /\
    (token_type last = SECOND_PRIORITY_OP \/
     token_type last = THIRD_PRIORITY_OP).
Proof.
  unfold sign_position.
  destruct (rev result) as [|last r] eqn:E.
  - apply (f_equal (@rev Token)) in E. rewrite rev_involutive in E.
    simpl in E. subst. split; auto.
  - apply (f_equal (@rev Token)) in E. rewrite rev_involutive in E.
    simpl in E. subst result. split.
    + intro H. right. exists (rev r), last. split; [reflexivity|].
      destruct (token_type last); simpl in H; try discriminate; auto.
    + intros [H|(before & last' & H & Hty)].
      * destruct (rev r); discriminate.
      * apply app_inj_tail in H. destruct H as [_ ->].
        destruct Hty as [-> | ->]; reflexivity.
Qed.

Lemma push_ok (st : lexer_state) :
  lexer_ok st -> lexer_ok (push st) /\ current_type (push st) = None.
Proof.
  intros [Hr Hc]. unfold push, lexer_ok; simpl.
  repeat split; auto.
  destruct (current_type st); auto.
  apply Forall_app; split; auto.
Qed.

Lemma open_token_ok (st : lexer_state) (v : ascii) (ty : TokenType) :
  lexer_ok st -> ty <> DOT -> lexer_ok (open_token st v ty).
Proof.
  intros [Hr _] Hty. unfold open_token, lexer_ok; simpl.
  repeat split; auto. discriminate.
Qed.

Lemma extend_token_ok (st : lexer_state) (v : ascii) :
  lexer_ok st -> lexer_ok (extend_token st v).
Proof.
  intros [Hr Hc]. unfold extend_token, lexer_ok; simpl.
  split; auto.
  destruct (current_type st); auto.
  destruct Hc as [Hs Hty]. split; auto.
  destruct (current_str st); [congruence | discriminate].
Qed.

Lemma lex_step_ok (st : lexer_state) (v : ascii) :
  lexer_ok st -> lexer_ok (lex_step st v).
Proof.
  intro H.
  pose proof (extend_token_ok v H) as He.
  pose proof (proj1 (push_ok H)) as Hp.
  assert (Ho : forall ty, ty <> DOT -> lexer_ok (open_token (push st) v ty))
    by (intros; now apply open_token_ok).
  assert (Hpo : forall ty, ty <> DOT ->
                           lexer_ok (push (open_token (push st) v ty)))
    by (intros; now apply push_ok, Ho).
  unfold lex_step.
  repeat match goal with
         | |- context [if ?c then _ else _] => destruct c
         | |- context [match current_type st with _ => _ end] =>
             destruct (current_type st) as [[]|]
         end; auto; try (apply Ho; discriminate);
    try (apply Hpo; discriminate).
Qed.

Lemma lex_loop_ok (s : string) (st : lexer_state) :
  lexer_ok st -> lexer_ok (lex_loop st s).
Proof.
  revert st; induction s as [|v s IH]; intros st H; simpl; auto.
  apply IH, lex_step_ok, H.
Qed.

Lemma lexer_init_ok : lexer_ok lexer_init.
Proof. split; simpl; auto. Qed.

End LexerFacts.

(* ================================================================== *)
(** * The parser's budget

    More fuel never changes an answer, every answer reports at least one
    token, and the budget of [parse] is enough at every position. *)

Lemma refines_refl {A : Type} (r : result A) : refines r r.
Proof. now right. Qed.

Lemma refines_bind {A B : Type} (r r' : result A) (k k' : A -> result B) :
  refines r r' -> (forall a, refines (k a) (k' a)) ->
  refines (bind r k) (bind r' k').
Proof.
  intros [-> | ->] Hk.
  - now left.
  - destruct r'; simpl; [apply Hk | now right | now left].
Qed.

Lemma refines_Ok {A : Type} (r r' : result A) (a : A) :
  refines r r' -> r = Ok a -> r' = Ok a.
Proof. intros [-> | ->]; [discriminate | auto]. Qed.

Lemma bind_fuel {A B : Type} (r : result A) (k : A -> result B) :
  r <> OutOfFuel -> (forall a, r = Ok a -> k a <> OutOfFuel) ->
  bind r k <> OutOfFuel.
Proof.
  destruct r; simpl; intros Hr Hk; [now apply Hk | discriminate | auto].
Qed.

Create HintDb parser.
#[local] Hint Resolve refines_refl : parser.

(** Splits the goal along the [if]s and pattern matches of a parser
    function. *)
Ltac split_branches :=
  repeat match goal with
         | |- context [if ?c then _ else _] => destruct c eqn:?
         | |- context [let '(_, _) := ?p in _] => destruct p
         end.

(** Reads a hypothesis [H : ... = Ok _] about one call of a parser function
    down to the calls it makes. *)
Ltac read_call H :=
  simpl in H;
  repeat (match type of H with
          | bind ?r _ = Ok _ =>
              let a := fresh "a" in
              let E := fresh "E" in
              destruct r as [a| |] eqn:E; [|discriminate H|discriminate H];
              match type of a with
              | (_ * _)%type => destruct a as [? ?]
              | _ => idtac
              end
          | (if ?c then _ else _) = Ok _ =>
              let E := fresh "E" in destruct c eqn:E
          | parse_number _ _ = Ok _ => unfold parse_number in H
          | Raise _ = Ok _ => discriminate H
          | OutOfFuel = Ok _ => discriminate H
          end; simpl in H).

Section ParserFacts.

Variable token_list : list Token.

Lemma token_at_Ok (pos : nat) (t : Token) :
  token_at token_list pos = Ok t <-> nth_error token_list pos = Some t.
Proof.
  unfold token_at. destruct (nth_error token_list pos); split; congruence.
Qed.

Lemma token_at_range (pos : nat) (t : Token) :
  token_at token_list pos = Ok t -> pos < List.length token_list.
Proof.
  intro H. apply token_at_Ok in H.
  apply nth_error_Some. congruence.
Qed.

Lemma token_at_fuel (pos : nat) : token_at token_list pos <> OutOfFuel.
Proof. unfold token_at. destruct (nth_error _ _); discriminate. Qed.

Lemma token_at_out_of_range (pos : nat) :
  List.length token_list <= pos -> token_at token_list pos = Raise IndexError.
Proof.
  intro H. unfold token_at.
  now rewrite (proj2 (nth_error_None token_list pos) H).
Qed.

(** ** More fuel, same answer *)

Lemma more_fuel (fuel fuel' : nat) :
  fuel <= fuel' ->
  (forall pos, refines (parse_first_priority token_list fuel pos)
                       (parse_first_priority token_list fuel' pos)) /\
  (forall pos, refines (parse_sign token_list fuel pos)
                       (parse_sign token_list fuel' pos)) /\
  (forall pos, refines (parse_bracket token_list fuel pos)
                       (parse_bracket token_list fuel' pos)) /\
  (forall pos, refines (parse_constant_or_function token_list fuel pos)
                       (parse_constant_or_function token_list fuel' pos)) /\
  (forall pos l, refines (parse_second_priority token_list fuel pos l)
                         (parse_second_priority token_list fuel' pos l)) /\
  (forall pos l, refines (parse_third_priority token_list fuel pos l)
                         (parse_third_priority token_list fuel' pos l)) /\
  (forall pos e n,
      refines (parse_third_priority_loop token_list fuel pos e n)
              (parse_third_priority_loop token_list fuel' pos e n)) /\
  (forall pos, refines (parse_expr token_list fuel pos)
                       (parse_expr token_list fuel' pos)) /\
  (forall pos e n, refines (parse_expr_loop token_list fuel pos e n)
                           (parse_expr_loop token_list fuel' pos e n)).
Proof.
  revert fuel'; induction fuel as [|fuel IH]; intros fuel' Hle.
  - repeat split; intros; left; reflexivity.
  - destruct fuel' as [|fuel']; [lia|].
    destruct (IH fuel') as (H1 & H2 & H3 & H4 & H5 & H6 & H7 & H8 & H9);
      [lia|].
    repeat split; intros; simpl;
      repeat (cbv beta;
              first [ solve [auto with parser]
                    | apply refines_bind; [solve [auto with parser]|intros ?]
                    | progress split_branches ]).
Qed.

(** ** Every answer reports at least one token *)

Lemma answer_length (fuel : nat) :
  (forall pos e n,
      parse_first_priority token_list fuel pos = Ok (e, n) -> 1 <= n) /\
  (forall pos e n, parse_sign token_list fuel pos = Ok (e, n) -> 1 <= n) /\
  (forall pos e n, parse_bracket token_list fuel pos = Ok (e, n) -> 1 <= n) /\
  (forall pos e n,
      parse_constant_or_function token_list fuel pos = Ok (e, n) -> 1 <= n) /\
  (forall pos l e n,
      parse_second_priority token_list fuel pos l = Ok (e, n) -> 1 <= n) /\
  (forall pos l e n,
      parse_third_priority token_list fuel pos l = Ok (e, n) -> 1 <= n) /\
  (forall pos e0 n0 e n,
      parse_third_priority_loop token_list fuel pos e0 n0 = Ok (e, n) ->
      n0 <= n) /\
  (forall pos e n, parse_expr token_list fuel pos = Ok (e, n) -> 1 <= n) /\
  (forall pos e0 n0 e n,
      parse_expr_loop token_list fuel pos e0 n0 = Ok (e, n) -> n0 <= n).
Proof.
  induction fuel as [|fuel IH].
  - repeat split; intros; discriminate.
  - destruct IH as (H1 & H2 & H3 & H4 & H5 & H6 & H7 & H8 & H9).
    repeat split; intros until n; intro H; read_call H;
      try (injection H as _ <-);
      repeat match goal with
             | E : _ = Ok (_, _) |- _ =>
                 first [ apply H1 in E | apply H2 in E | apply H3 in E
                       | apply H4 in E | apply H5 in E | apply H6 in E
                       | apply H7 in E | apply H8 in E | apply H9 in E ]
             end;
      lia.
Qed.

End ParserFacts.

(** Turns the facts in the context into arithmetic: positions that hold a
    token, the tests of the loops, the lengths of the answers. *)
Ltac answer_fact H tl fuel :=
  let AL := constr:(answer_length tl fuel) in
  first [ apply (proj1 AL) in H
        | apply (proj1 (proj2 AL)) in H
        | apply (proj1 (proj2 (proj2 AL))) in H
        | apply (proj1 (proj2 (proj2 (proj2 AL)))) in H
        | apply (proj1 (proj2 (proj2 (proj2 (proj2 AL))))) in H
        | apply (proj1 (proj2 (proj2 (proj2 (proj2 (proj2 AL)))))) in H
        | apply (proj1 (proj2 (proj2 (proj2 (proj2 (proj2 (proj2 AL)))))))
            in H
        | apply (proj1 (proj2 (proj2 (proj2 (proj2 (proj2 (proj2
                                                    (proj2 AL))))))))
            in H
        | apply (proj2 (proj2 (proj2 (proj2 (proj2 (proj2 (proj2
                                                    (proj2 AL))))))))
            in H ].

Ltac to_arith :=
  repeat match goal with
         | H : token_at _ _ = Ok _ |- _ => apply token_at_range in H
         | H : Nat.ltb _ _ = true |- _ => apply Nat.ltb_lt in H
         | H : Nat.ltb _ _ = false |- _ => apply Nat.ltb_ge in H
         | H : Nat.eqb _ _ = true |- _ => apply Nat.eqb_eq in H
         | H : Nat.eqb _ _ = false |- _ => apply Nat.eqb_neq in H
         | H : _ ?tl ?fuel _ = Ok (_, _) |- _ => answer_fact H tl fuel
         | H : _ ?tl ?fuel _ _ = Ok (_, _) |- _ => answer_fact H tl fuel
         | H : _ ?tl ?fuel _ _ _ = Ok (_, _) |- _ => answer_fact H tl fuel
         end.

Section ParserBudget.

Variable token_list : list Token.

(** ** The budget that is enough *)

Lemma py_assert_fuel (c : bool) : py_assert c <> OutOfFuel.
Proof. destruct c; discriminate. Qed.

Lemma enough_fuel (fuel : nat) :
  let L := List.length token_list in
  (forall pos, 3 * (L - pos) + 4 <= fuel ->
               parse_first_priority token_list fuel pos <> OutOfFuel) /\
  (forall pos, 3 * (L - pos) + 2 <= fuel ->
               parse_sign token_list fuel pos <> OutOfFuel) /\
  (forall pos, 3 * (L - pos) + 3 <= fuel ->
               parse_bracket token_list fuel pos <> OutOfFuel) /\
  (forall pos, 3 * (L - pos) + 1 <= fuel ->
               parse_constant_or_function token_list fuel pos <> OutOfFuel) /\
  (forall pos l, 3 * (L - pos) + 2 <= fuel ->
                 parse_second_priority token_list fuel pos l <> OutOfFuel) /\
  (forall pos l, 3 * (L - pos) + 2 <= fuel ->
                 parse_third_priority token_list fuel pos l <> OutOfFuel) /\
  (forall pos e n,
      3 * (L - (pos + n + 1)) + 3 <= fuel ->
      parse_third_priority_loop token_list fuel pos e n <> OutOfFuel) /\
  (forall pos, 3 * (L - pos) + 5 <= fuel ->
               parse_expr token_list fuel pos <> OutOfFuel) /\
  (forall pos e n,
      3 * (L - (pos + n)) + 3 <= fuel ->
      parse_expr_loop token_list fuel pos e n <> OutOfFuel).
Proof.
  intro L. induction fuel as [|fuel IH].
  - repeat split; intros; lia.
  - destruct IH as (H1 & H2 & H3 & H4 & H5 & H6 & H7 & H8 & H9).
    repeat split; intros; simpl;
      repeat (cbv beta;
              first [ discriminate
                    | apply token_at_fuel
                    | apply py_assert_fuel
                    | apply bind_fuel; [|intros ? ?]
                    | progress split_branches
                    | solve [ first [ apply H1 | apply H2 | apply H3
                                    | apply H4 | apply H5 | apply H6
                                    | apply H7 | apply H8 | apply H9 ];
                              to_arith; subst L; lia ] ]).
Qed.

(** The budget of [parse] is never exhausted, and [parse] gives the
    answer of [parse_expr] at every budget that is enough for one. *)
Lemma parse_fuel_enough (pos : nat) : parse token_list pos <> OutOfFuel.
Proof.
  unfold parse, parse_fuel.
  apply (enough_fuel (3 * List.length token_list + 5)). lia.
Qed.

Lemma parse_any_fuel (fuel pos : nat) (r : result (expr * nat)) :
  parse_expr token_list fuel pos = r -> r <> OutOfFuel ->
  parse token_list pos = r.
Proof.
  intros H Hr. unfold parse.
  destruct (Nat.le_ge_cases fuel (parse_fuel token_list)) as [Hle | Hle].
  - destruct (more_fuel token_list Hle) as (_ & _ & _ & _ & _ & _ & _ & H8 & _).
    destruct (H8 pos) as [E | E]; congruence.
  - destruct (more_fuel token_list Hle) as (_ & _ & _ & _ & _ & _ & _ & H8 & _).
    destruct (H8 pos) as [E | E]; [|congruence].
    now apply parse_fuel_enough in E.
Qed.

(** [parse_expr] at a position that holds no token, and at one that holds
    a binary operator. *)
Lemma parse_expr_out_of_range (fuel pos : nat) :
  List.length token_list <= pos ->
  parse_expr token_list (S (S fuel)) pos = Raise IndexError.
Proof.
  intro H. simpl. now rewrite token_at_out_of_range.
Qed.

Lemma parse_expr_binary_first (fuel pos : nat) (t : Token) :
  nth_error token_list pos = Some t ->
  token_type t = SECOND_PRIORITY_OP \/ token_type t = THIRD_PRIORITY_OP ->
  parse_expr token_list (S (S fuel)) pos = Raise ValueError.
Proof.
  intros Ht Hty. simpl.
  rewrite (proj2 (token_at_Ok token_list pos t) Ht). simpl.
  destruct Hty as [-> | ->]; reflexivity.
Qed.

End ParserBudget.

(* ================================================================== *)
(** * What the parser looks at

    An answer [(e, n)] at [pos] depends on the tokens at the positions up
    to [pos + n] only, that one included, and on whether the list ends
    there. *)

Section Frame.

Variables l1 l2 : list Token.

Lemma agree_le (k k' : nat) : k' <= k -> agree l1 l2 k -> agree l1 l2 k'.
Proof. intros Hle H i Hi. apply H. lia. Qed.

Lemma token_at_agree (k i : nat) :
  agree l1 l2 k -> i <= k -> token_at l2 i = token_at l1 i.
Proof. intros H Hi. unfold token_at. now rewrite (H i Hi). Qed.

Lemma ltb_length_agree (k i : nat) :
  agree l1 l2 k -> i <= k ->
  Nat.ltb i (List.length l2) = Nat.ltb i (List.length l1).
Proof.
  intros H Hi. specialize (H i Hi).
  destruct (Nat.ltb_spec i (List.length l1)) as [H1 | H1];
    destruct (Nat.ltb_spec i (List.length l2)) as [H2 | H2];
    try reflexivity; exfalso.
  - apply nth_error_None in H2. apply nth_error_Some in H1. congruence.
  - apply nth_error_None in H1. apply nth_error_Some in H2. congruence.
Qed.

Lemma eqb_length_agree (k pos : nat) :
  agree l1 l2 k -> pos + 1 <= k -> pos < List.length l1 ->
  Nat.eqb (pos + 1) (List.length l2) = Nat.eqb (pos + 1) (List.length l1).
Proof.
  intros H Hk Hpos.
  pose proof (ltb_length_agree (i := pos) H ltac:(lia)) as H0.
  pose proof (ltb_length_agree (i := pos + 1) H ltac:(lia)) as H1.
  destruct (Nat.ltb_spec pos (List.length l2));
    destruct (Nat.ltb_spec pos (List.length l1));
    destruct (Nat.ltb_spec (pos + 1) (List.length l2));
    destruct (Nat.ltb_spec (pos + 1) (List.length l1));
    try discriminate; try lia;
    destruct (Nat.eqb_spec (pos + 1) (List.length l2));
    destruct (Nat.eqb_spec (pos + 1) (List.length l1));
    try reflexivity; lia.
Qed.

(** Solves the side conditions of [transport]: a position is within the
    bound of [Hag]. *)
Ltac within_bound Hag :=
  first [ eapply agree_le; [|exact Hag] | idtac ]; to_arith; lia.

(** Rewrites the goal, a call on [l2], along the hypotheses that describe
    the same call on [l1]; [IH] are the nine induction hypotheses. *)
Ltac transport Hag H1 H2 H3 H4 H5 H6 H7 H8 H9 :=
  repeat (simpl; cbv beta;
          match goal with
          | |- ?x = ?x => reflexivity
          | E : Ok _ = Ok _ |- _ => injection E as E; subst
          | E : token_at l1 ?i = Ok _ |- context [token_at l2 ?i] =>
              rewrite (token_at_agree (i := i) Hag) by within_bound Hag
          | |- context [Nat.ltb ?i (List.length l2)] =>
              rewrite (ltb_length_agree (i := i) Hag) by within_bound Hag
          | |- context [Nat.eqb (?p + 1) (List.length l2)] =>
              rewrite (eqb_length_agree (pos := p) Hag)
                by within_bound Hag
          | E : ?r = Ok _ |- context [bind ?r _] => rewrite E
          | E : ?c = true |- context [if ?c then _ else _] => rewrite E
          | E : ?c = false |- context [if ?c then _ else _] => rewrite E
          | E : _ l1 _ _ = Ok _ |- _ =>
              first [ rewrite (H1 _ _ _ E) by within_bound Hag
                    | rewrite (H2 _ _ _ E) by within_bound Hag
                    | rewrite (H3 _ _ _ E) by within_bound Hag
                    | rewrite (H4 _ _ _ E) by within_bound Hag
                    | rewrite (H8 _ _ _ E) by within_bound Hag ]
          | E : _ l1 _ _ _ = Ok _ |- _ =>
              first [ rewrite (H5 _ _ _ _ E) by within_bound Hag
                    | rewrite (H6 _ _ _ _ E) by within_bound Hag ]
          | E : _ l1 _ _ _ _ = Ok _ |- _ =>
              first [ rewrite (H7 _ _ _ _ _ E) by within_bound Hag
                    | rewrite (H9 _ _ _ _ _ E) by within_bound Hag ]
          | |- context [parse_number l2 _] => unfold parse_number
          end).

Lemma frame (fuel : nat) : same_answers l1 l2 fuel.
Proof.
  unfold same_answers.
  induction fuel as [|fuel IH].
  - repeat split; intros; discriminate.
  - destruct IH as (H1 & H2 & H3 & H4 & H5 & H6 & H7 & H8 & H9).
    repeat split; intros until n; intros H Hag; read_call H;
      try (injection H as <- <-).
    all: transport Hag H1 H2 H3 H4 H5 H6 H7 H8 H9.
Qed.

End Frame.

Lemma parse_frame (l1 l2 : list Token) (pos : nat) (e : expr) (n : nat) :
  parse l1 pos = Ok (e, n) -> agree l1 l2 (pos + n) ->
  parse l2 pos = Ok (e, n).
Proof.
  intros H Hag. unfold parse in H.
  destruct (frame l1 l2 (parse_fuel l1)) as (_ & _ & _ & _ & _ & _ & _ & H8 & _).
  apply parse_any_fuel with (fuel := parse_fuel l1); [|discriminate].
  now apply H8.
Qed.

(* ================================================================== *)
(** * Well-formed expressions are parsed to their end *)

Lemma binary_operator_type (op : Token) :
  binary_operator op ->
  (token_type op = SECOND_PRIORITY_OP \/ token_type op = THIRD_PRIORITY_OP)
  /\ is_left_bracket op = false.
Proof.
  unfold is_left_bracket.
  intros [[Hty Hin] | [Hty Hin]]; (split; [auto|]);
    simpl in Hin; destruct Hin as [<- | [<- | []]]; reflexivity.
Qed.

Lemma token_at_middle (tl pre post : list Token) (t : Token) (pos : nat) :
  tl = pre ++ t :: post -> List.length pre = pos ->
  token_at tl pos = Ok t /\ Nat.ltb pos (List.length tl) = true.
Proof.
  intros -> <-. split.
  - unfold token_at. rewrite nth_error_app2 by lia.
    now rewrite Nat.sub_diag.
  - apply Nat.ltb_lt. rewrite length_app. simpl. lia.
Qed.

Lemma token_at_end (tl : list Token) (pos : nat) :
  List.length tl = pos -> Nat.ltb pos (List.length tl) = false.
Proof. intros <-. apply Nat.ltb_irrefl. Qed.

Lemma follows_chain (items : list (Token * list Token)) (post : list Token) :
  Forall item_read items -> follows post -> follows (chain items ++ post).
Proof.
  intros [|[op ts] rest [Hop _] _] Hpost; simpl; auto.
  now apply binary_operator_type.
Qed.

(** Brings an answer obtained with the budget [f] to the budget [g]. *)
Ltac boost E g :=
  match type of E with
  | _ ?tl ?f _ = Ok _ =>
      let M := constr:(@more_fuel tl f g ltac:(lia)) in
      first [ apply (refines_Ok (proj1 M _)) in E
            | apply (refines_Ok (proj1 (proj2 M) _)) in E
            | apply (refines_Ok (proj1 (proj2 (proj2 M)) _)) in E
            | apply (refines_Ok (proj1 (proj2 (proj2 (proj2 M))) _)) in E
            | apply (refines_Ok
                       (proj1 (proj2 (proj2 (proj2 (proj2 (proj2 (proj2
                                                    (proj2 M))))))) _))
                in E ]
  | _ ?tl ?f _ _ = Ok _ =>
      let M := constr:(@more_fuel tl f g ltac:(lia)) in
      first [ apply (refines_Ok
                       (proj1 (proj2 (proj2 (proj2 (proj2 M)))) _ _)) in E
            | apply (refines_Ok
                       (proj1 (proj2 (proj2 (proj2 (proj2 (proj2 M)))))
                          _ _)) in E ]
  | _ ?tl ?f _ _ _ = Ok _ =>
      let M := constr:(@more_fuel tl f g ltac:(lia)) in
      first [ apply (refines_Ok
                       (proj1 (proj2 (proj2 (proj2 (proj2 (proj2
                                                    (proj2 M))))))
                          _ _ _)) in E
            | apply (refines_Ok
                       (proj2 (proj2 (proj2 (proj2 (proj2 (proj2 (proj2
                                                    (proj2 M)))))))
                          _ _ _)) in E ]
  end.

(** Runs the body of a parser function in the goal along the facts of the
    context. *)
Ltac run_step :=
  cbn [bind py_assert TokenType_eqb type_in existsb orb
       token_type token_str lparen rparen].

Ltac run :=
  repeat (run_step;
          match goal with
          | E : ?x = Ok _ |- context [?x] => rewrite E
          | E : ?x = true |- context [?x] => rewrite E
          | E : ?x = false |- context [?x] => rewrite E
          | E : token_type ?t = _ |- context [token_type ?t] => rewrite E
          end);
  run_step.

(** Closes an equation between two ways to bracket a token list. *)
Ltac same_list :=
  cbn [chain app]; repeat (rewrite <- app_assoc; cbn [app]); reflexivity.

(** Closes a goal [Ok (e, n) = Ok (e, n')]. *)
Ltac same_answer :=
  apply (f_equal Ok); apply (f_equal (pair _));
  cbn [chain List.length]; rewrite ?length_app;
  cbn [chain List.length]; rewrite ?length_app; cbn [List.length]; lia.

Lemma no_second_follows (post : list Token) : no_second post -> follows post.
Proof. destruct post; simpl; tauto. Qed.

Lemma ends_no_second (post : list Token) : ends post -> no_second post.
Proof.
  destruct post; simpl; auto. intros [-> H]. split; [discriminate|exact H].
Qed.

Lemma eqb_type_false (a b : TokenType) : a <> b -> TokenType_eqb a b = false.
Proof. destruct a, b; simpl; congruence. Qed.

(** The loop of [parse_third_priority] reads a run of operands joined by
    second-priority operators to its end. *)
Lemma third_priority_loop_read (run : list (Token * list Token)) :
  Forall item_read run ->
  Forall (fun item => token_type (fst item) = SECOND_PRIORITY_OP) run ->
  forall tl pre post pos e0 n0,
    tl = pre ++ chain run ++ post -> List.length pre = pos + n0 + 1 ->
    no_second post ->
    exists fuel e,
      parse_third_priority_loop tl fuel pos e0 n0 =
      Ok (e, n0 + List.length (chain run)).
Proof.
  induction run as [|[op ts] run IH];
    intros Hread Hsecond tl pre post pos e0 n0 Htl Hpre Hpost.
  - exists 1, e0. cbn [parse_third_priority_loop chain app] in *.
    destruct post as [|t post].
    + rewrite app_nil_r in Htl. subst tl.
      rewrite token_at_end by exact Hpre. same_answer.
    + destruct (token_at_middle pre post t Htl Hpre) as [Et El].
      destruct Hpost as [Hty _]. apply eqb_type_false in Hty.
      replace (n0 + pos + 1) with (pos + n0 + 1) by lia.
      run. same_answer.
  - apply Forall_cons_iff in Hread. destruct Hread as [[Hop Hts] Hread'].
    apply Forall_cons_iff in Hsecond. destruct Hsecond as [Hty Hsecond'].
    cbn [fst snd] in *.
    destruct (token_at_middle (tl := tl) pre (ts ++ chain run ++ post) op)
      with (pos := pos + n0 + 1) as [Et El];
      [subst tl; same_list | exact Hpre |].
    destruct (Hts tl (pre ++ [op]) (chain run ++ post) (pos + n0 + 1 + 1))
      as (f1 & e1 & E1).
    { subst tl. same_list. }
    { rewrite length_app. cbn [List.length]. lia. }
    { apply follows_chain; [exact Hread'|now apply no_second_follows]. }
    assert (Es : parse_second_priority tl (S f1) (pos + n0 + 1) e0 =
                 Ok (BinaryExpression e0 (token_str op) e1,
                     List.length ts + 1)).
    { cbn [parse_second_priority]. run. reflexivity. }
    destruct (IH Hread' Hsecond' tl (pre ++ op :: ts) post pos
                 (BinaryExpression e0 (token_str op) e1)
                 (n0 + (List.length ts + 1)))
      as (f2 & e2 & E2).
    { subst tl. same_list. }
    { rewrite length_app. cbn [List.length]. lia. }
    { exact Hpost. }
    remember (Nat.max (S f1) f2) as g eqn:Hg.
    boost Es g. boost E2 g.
    exists (S g), e2.
    cbn [parse_third_priority_loop].
    replace (n0 + pos + 1) with (pos + n0 + 1) by lia.
    run. same_answer.
Qed.


Lemma eqb_type_true (a b : TokenType) : TokenType_eqb a b = true -> a = b.
Proof. destruct a, b; simpl; congruence. Qed.

Lemma run_split (items : list (Token * list Token)) :
  items = second_run items ++ after_run items /\
  Forall (fun item => token_type (fst item) = SECOND_PRIORITY_OP)
         (second_run items) /\
  List.length (after_run items) <= List.length items /\
  (Forall item_read items ->
   Forall item_read (second_run items) /\
   Forall item_read (after_run items)) /\
  match after_run items with
  | [] => True
  | (op, _) :: _ => token_type op <> SECOND_PRIORITY_OP
  end.
Proof.
  induction items as [|[op ts] rest (IH1 & IH2 & IH3 & IH4 & IH5)];
    cbn [second_run after_run].
  - repeat split; constructor.
  - destruct (TokenType_eqb (token_type op) SECOND_PRIORITY_OP) eqn:E.
    + repeat split.
      * cbn [app]. now rewrite <- IH1.
      * constructor; [now apply eqb_type_true | exact IH2].
      * cbn [List.length]. lia.
      * apply Forall_cons_iff in H. constructor; [tauto|].
        now apply IH4.
      * apply Forall_cons_iff in H. now apply IH4.
      * exact IH5.
    + repeat split; auto.
      intro H. rewrite H in E. discriminate.
Qed.

Lemma chain_app (a b : list (Token * list Token)) :
  chain (a ++ b) = chain a ++ chain b.
Proof.
  induction a as [|[op ts] a IH]; cbn [chain app]; [reflexivity|].
  now rewrite IH, <- app_assoc.
Qed.

Lemma ends_follows (post : list Token) : ends post -> follows post.
Proof. intro H. now apply no_second_follows, ends_no_second. Qed.

Lemma no_second_after_run (rest : list (Token * list Token))
      (post : list Token) :
  Forall item_read rest -> ends post ->
  no_second (chain (after_run rest) ++ post).
Proof.
  intros Hread Hpost.
  destruct (run_split rest) as (_ & _ & _ & Hreads & Hhead).
  destruct (Hreads Hread) as [_ Hafter].
  destruct (after_run rest) as [|[op ts] after]; cbn [chain app].
  - now apply ends_no_second.
  - apply Forall_cons_iff in Hafter. destruct Hafter as [[Hop _] _].
    split; [exact Hhead | now apply binary_operator_type].
Qed.

(** The loop of [parse_expr] reads a chain to its end. *)
Lemma expr_loop_read (k : nat) :
  forall items,
    List.length items <= k ->
    Forall item_read items ->
    forall tl pre post pos e0 n0,
      tl = pre ++ chain items ++ post -> List.length pre = pos + n0 ->
      ends post ->
      exists fuel e,
        parse_expr_loop tl fuel pos e0 n0 =
        Ok (e, n0 + List.length (chain items)).
Proof.
  induction k as [|k IH];
    intros [|[op ts] rest] Hk Hread tl pre post pos e0 n0 Htl Hpre Hpost;
    try (cbn [List.length] in Hk; lia).
  1, 2:
    exists 1, e0; cbn [parse_expr_loop chain app] in *;
    destruct post as [|t post];
    [ rewrite app_nil_r in Htl; subst tl;
      rewrite token_at_end by exact Hpre; same_answer
    | destruct (token_at_middle pre post t Htl Hpre) as [Et El];
      destruct Hpost as [Hty _];
      replace (n0 + pos) with (pos + n0) by lia;
      run; same_answer ].
  apply Forall_cons_iff in Hread. destruct Hread as [[Hop Hts] Hread'].
  cbn [fst snd List.length] in *.
  destruct (token_at_middle (tl := tl) pre (ts ++ chain rest ++ post) op)
    with (pos := pos + n0) as [Et El];
    [subst tl; same_list | exact Hpre |].
  destruct (Hts tl (pre ++ [op]) (chain rest ++ post) (pos + n0 + 1))
    as (f1 & e1 & E1).
  { subst tl. same_list. }
  { rewrite length_app. cbn [List.length]. lia. }
  { apply follows_chain; [exact Hread'|now apply ends_follows]. }
  destruct (binary_operator_type Hop) as [[Hty | Hty] _].
  - (* a second-priority operator *)
    assert (Es : parse_second_priority tl (S f1) (pos + n0) e0 =
                 Ok (BinaryExpression e0 (token_str op) e1,
                     List.length ts + 1)).
    { cbn [parse_second_priority]. run. reflexivity. }
    destruct (IH rest ltac:(lia) Hread' tl (pre ++ op :: ts) post pos
                 (BinaryExpression e0 (token_str op) e1)
                 (n0 + (List.length ts + 1)))
      as (f2 & e2 & E2).
    { subst tl. same_list. }
    { rewrite length_app. cbn [List.length]. lia. }
    { exact Hpost. }
    remember (Nat.max (S f1) f2) as g eqn:Hg.
    boost Es g. boost E2 g.
    exists (S g), e2.
    cbn [parse_expr_loop].
    replace (n0 + pos) with (pos + n0) by lia.
    run. same_answer.
  - (* a third-priority operator, and the run of products after it *)
    destruct (run_split rest) as (Hsplit & Hrun & Hlen & Hreads & _).
    destruct (Hreads Hread') as [Hread_run Hread_after].
    pose proof (chain_app (second_run rest) (after_run rest)) as Hchain.
    rewrite <- Hsplit in Hchain.
    assert (Hcl : List.length (chain rest) =
                  List.length (chain (second_run rest)) +
                  List.length (chain (after_run rest)))
      by (rewrite Hchain; apply length_app).
    destruct (third_priority_loop_read Hread_run Hrun
                (tl := tl) (pre ++ op :: ts)
                (chain (after_run rest) ++ post) (pos + n0) e1
                (List.length ts))
      as (f3 & e3 & E3).
    { subst tl. cbn [chain]. rewrite Hchain. same_list. }
    { rewrite length_app. cbn [List.length]. lia. }
    { now apply no_second_after_run. }
    remember (Nat.max f1 f3) as g3 eqn:Hg3.
    boost E1 g3. boost E3 g3.
    assert (Et3 : parse_third_priority tl (S g3) (pos + n0) e0 =
                  Ok (BinaryExpression e0 (token_str op) e3,
                      List.length ts +
                      List.length (chain (second_run rest)) + 1)).
    { cbn [parse_third_priority]. run. reflexivity. }
    destruct (IH (after_run rest) ltac:(lia) Hread_after tl
                 (pre ++ op :: ts ++ chain (second_run rest)) post pos
                 (BinaryExpression e0 (token_str op) e3)
                 (n0 + (List.length ts +
                        List.length (chain (second_run rest)) + 1)))
      as (f4 & e4 & E4).
    { subst tl. cbn [chain]. rewrite Hchain. same_list. }
    { rewrite length_app. cbn [List.length]. rewrite length_app. lia. }
    { exact Hpost. }
    remember (Nat.max (S g3) f4) as g eqn:Hg.
    boost Et3 g. boost E4 g.
    exists (S g), e4.
    cbn [parse_expr_loop].
    replace (n0 + pos) with (pos + n0) by lia.
    run. same_answer.
Qed.

Lemma chain_read (head : list Token) (items : list (Token * list Token)) :
  operand_read head -> Forall item_read items ->
  expression_read (head ++ chain items).
Proof.
  intros Hhead Hitems tl pre post pos Htl Hpre Hpost.
  destruct (Hhead tl pre (chain items ++ post) pos) as (f1 & e1 & E1).
  { subst tl. same_list. }
  { exact Hpre. }
  { apply follows_chain; [exact Hitems|now apply ends_follows]. }
  destruct (expr_loop_read (Nat.le_refl _) Hitems (tl := tl)
              (pre ++ head) post pos e1 (List.length head))
    as (f2 & e2 & E2).
  { subst tl. same_list. }
  { rewrite length_app. lia. }
  { exact Hpost. }
  remember (Nat.max f1 f2) as g eqn:Hg.
  boost E1 g. boost E2 g.
  exists (S g), e2.
  cbn [parse_expr]. run. same_answer.
Qed.

(** Every operand is read whole as an operand, and every expression is a
    chain of such operands. *)
Lemma grammar_read :
  (forall ts, operand ts -> operand_read ts) /\
  (forall ts, expression ts ->
              exists head items,
                ts = head ++ chain items /\
                operand_read head /\ Forall item_read items).
Proof.
  apply operand_expression_ind.
  - (* a number *)
    intros t Hty tl pre post pos Htl Hpre Hpost.
    destruct (token_at_middle (tl := tl) pre post t) with (pos := pos)
      as [Et El]; [subst tl; same_list | exact Hpre |].
    exists 1. eexists.
    cbn [parse_first_priority]. run. unfold parse_number. run. reflexivity.
  - (* a constant *)
    intros t Hty tl pre post pos Htl Hpre Hpost.
    destruct (token_at_middle (tl := tl) pre post t) with (pos := pos)
      as [Et El]; [subst tl; same_list | exact Hpre |].
    exists 2. eexists.
    cbn [parse_first_priority parse_constant_or_function]. run.
    destruct post as [|t' post].
    + assert (Eq : Nat.eqb (pos + 1) (List.length tl) = true).
      { apply Nat.eqb_eq. subst tl pos. rewrite !length_app.
        cbn [List.length]. lia. }
      run. reflexivity.
    + assert (Eq : Nat.eqb (pos + 1) (List.length tl) = false).
      { apply Nat.eqb_neq. subst tl pos. rewrite !length_app.
        cbn [List.length]. lia. }
      destruct (token_at_middle (tl := tl) (pre ++ [t]) post t')
        with (pos := pos + 1) as [Et' _];
        [subst tl; same_list | rewrite length_app; cbn [List.length]; lia |].
      cbn [follows] in Hpost.
      run. reflexivity.
  - (* a function applied to an expression in brackets *)
    intros t inner Hty _ (head & items & -> & Hhead & Hitems)
           tl pre post pos Htl Hpre Hpost.
    pose proof (chain_read Hhead Hitems) as Hinner.
    set (inner := head ++ chain items) in *.
    destruct (token_at_middle (tl := tl) pre
                (lparen :: inner ++ rparen :: post) t) with (pos := pos)
      as [Et El]; [subst tl; same_list | exact Hpre |].
    destruct (token_at_middle (tl := tl) (pre ++ [t])
                (inner ++ rparen :: post) lparen) with (pos := pos + 1)
      as [Et' _];
      [subst tl; same_list | rewrite length_app; cbn [List.length]; lia |].
    assert (Eq : Nat.eqb (pos + 1) (List.length tl) = false).
    { apply Nat.eqb_neq. subst tl pos. rewrite !length_app.
      cbn [List.length]. lia. }
    assert (Elb : is_left_bracket lparen = true) by reflexivity.
    destruct (Hinner tl (pre ++ [t; lparen]) (rparen :: post) (pos + 1 + 1))
      as (f1 & e1 & E1).
    { subst tl. same_list. }
    { rewrite length_app. cbn [List.length]. lia. }
    { split; reflexivity. }
    exists (S (S (S f1))). eexists.
    cbn [parse_first_priority parse_constant_or_function parse_bracket].
    run. same_answer.
  - (* an expression in brackets *)
    intros inner _ (head & items & -> & Hhead & Hitems)
           tl pre post pos Htl Hpre Hpost.
    pose proof (chain_read Hhead Hitems) as Hinner.
    set (inner := head ++ chain items) in *.
    destruct (token_at_middle (tl := tl) pre (inner ++ rparen :: post) lparen)
      with (pos := pos) as [Et El]; [subst tl; same_list | exact Hpre |].
    destruct (Hinner tl (pre ++ [lparen]) (rparen :: post) (pos + 1))
      as (f1 & e1 & E1).
    { subst tl. same_list. }
    { rewrite length_app. cbn [List.length]. lia. }
    { split; reflexivity. }
    exists (S (S f1)). eexists.
    cbn [parse_first_priority parse_bracket].
    run. same_answer.
  - (* a signed operand *)
    intros t ts Hty _ Hts tl pre post pos Htl Hpre Hpost.
    destruct (token_at_middle (tl := tl) pre (ts ++ post) t) with (pos := pos)
      as [Et El]; [subst tl; same_list | exact Hpre |].
    destruct (Hts tl (pre ++ [t]) post (pos + 1)) as (f1 & e1 & E1).
    { subst tl. same_list. }
    { rewrite length_app. cbn [List.length]. lia. }
    { exact Hpost. }
    exists (S (S f1)). eexists.
    cbn [parse_first_priority parse_sign].
    run. same_answer.
  - (* an expression of one operand *)
    intros ts _ Hts. exists ts, []. cbn [chain].
    rewrite app_nil_r. repeat split; [exact Hts | constructor].
  - (* an operand, an operator and an expression *)
    intros ts op rest _ Hts Hop _ (head & items & -> & Hhead & Hitems).
    exists ts, ((op, head) :: items). repeat split.
    + exact Hts.
    + constructor; [split; assumption | exact Hitems].
Qed.

Lemma expression_is_read (ts : list Token) :
  expression ts -> expression_read ts.
Proof.
  intro H.
  destruct (proj2 grammar_read ts H) as (head & items & -> & Hhead & Hitems).
  now apply chain_read.
Qed.

(* ================================================================== *)
(** * What the lexer keeps of its input *)

Lemma string_app_nil_r (s : string) : (s ++ "")%string = s.
Proof. induction s as [|c s IH]; simpl; [reflexivity | now rewrite IH]. Qed.

Lemma string_app_assoc (a b c : string) :
  ((a ++ b) ++ c = a ++ (b ++ c))%string.
Proof. induction a as [|x a IH]; simpl; [reflexivity | now rewrite IH]. Qed.

Lemma texts_app (l1 l2 : list Token) :
  texts (l1 ++ l2) = (texts l1 ++ texts l2)%string.
Proof.
  induction l1 as [|t l1 IH]; simpl; [reflexivity|].
  now rewrite IH, string_app_assoc.
Qed.

Lemma push_text (st : lexer_state) :
  lexer_closed st -> lexer_text (push st) = lexer_text st.
Proof.
  unfold lexer_closed, lexer_text, push. simpl.
  destruct (current_type st); intro H.
  - rewrite texts_app. simpl. now rewrite !string_app_nil_r.
  - now rewrite H.
Qed.

Lemma push_closed (st : lexer_state) : lexer_closed (push st).
Proof. intro. reflexivity. Qed.

Lemma open_token_text (st : lexer_state) (v : ascii) (ty : TokenType) :
  lexer_closed st ->
  lexer_text (open_token (push st) v ty) = (lexer_text st ++ str1 v)%string /\
  lexer_text (push (open_token (push st) v ty))
  = (lexer_text st ++ str1 v)%string.
Proof.
  intro H. pose proof (push_text H) as Hp.
  assert (E : lexer_text (open_token (push st) v ty)
              = (lexer_text st ++ str1 v)%string).
  { unfold lexer_text in *. simpl in *.
    rewrite string_app_nil_r in Hp. now rewrite Hp. }
  split; [exact E|].
  rewrite push_text; [exact E | discriminate].
Qed.

Lemma extend_token_text (st : lexer_state) (v : ascii) :
  lexer_text (extend_token st v) = (lexer_text st ++ str1 v)%string.
Proof. unfold lexer_text. simpl. now rewrite string_app_assoc. Qed.

Lemma lex_step_text (st : lexer_state) (v : ascii) :
  lexer_closed st ->
  lexer_closed (lex_step st v) /\
  lexer_text (lex_step st v) =
  (lexer_text st ++ (if unmatched v then "" else str1 v))%string.
Proof.
  intro H.
  destruct (unmatched v) eqn:Eu.
  - rewrite lex_step_unmatched by exact Eu.
    now rewrite string_app_nil_r.
  - pose proof (fun ty => open_token_text v ty H) as Ho.
    pose proof (extend_token_text st v) as He.
    unfold unmatched in Eu. apply negb_false_iff in Eu.
    unfold lex_step.
    repeat match goal with
           | |- context [if ?c then _ else _] => destruct c eqn:?
           | |- context [match current_type st with _ => _ end] =>
               destruct (current_type st) as [[]|] eqn:?
           end;
      try (split; [ first [ apply push_closed | discriminate
                          | (intro Hc; simpl in Hc; congruence) ]
                  | first [ exact He | apply Ho ] ]).
    (* no rule matched: excluded by [Eu] *)
    repeat match goal with
           | E : (_ || _)%bool = false |- _ =>
               apply orb_false_elim in E; destruct E
           end.
    repeat match goal with
           | E : ?x = false, E' : context [?x] |- _ => rewrite E in E'
           end.
    simpl in Eu. congruence.
Qed.

Lemma lex_loop_text (s : string) (st : lexer_state) :
  lexer_closed st ->
  lexer_closed (lex_loop st s) /\
  lexer_text (lex_loop st s) = (lexer_text st ++ keep_matched s)%string.
Proof.
  revert st; induction s as [|v s IH]; intros st H; simpl.
  - now rewrite string_app_nil_r.
  - destruct (lex_step_text v H) as [Hc Ht].
    destruct (IH _ Hc) as [Hc' Ht'].
    split; [exact Hc'|].
    rewrite Ht', Ht, string_app_assoc.
    destruct (unmatched v); reflexivity.
Qed.

Lemma texts_lex (s : string) : texts (lex s) = keep_matched s.
Proof.
  assert (H0 : lexer_closed lexer_init) by (intro; reflexivity).
  destruct (lex_loop_text s H0) as [Hc Ht].
  pose proof (push_text Hc) as Hp.
  unfold lexer_text in Hp at 1. simpl in Hp.
  rewrite string_app_nil_r in Hp. unfold lex.
  simpl. rewrite Hp, Ht. reflexivity.
Qed.

(* ================================================================== *)
(** * The shape of the tokens *)

Lemma string_forall_app (p : ascii -> bool) (a b : string) :
  string_forall p (a ++ b) = (string_forall p a && string_forall p b)%bool.
Proof.
  induction a as [|v a IH]; simpl; [reflexivity|].
  now rewrite IH, andb_assoc.
Qed.

Lemma word_one (p : ascii -> bool) (v : ascii) :
  p v = true -> word p (str1 v).
Proof. intro H. split; [discriminate|]. simpl. now rewrite H. Qed.

Lemma word_extend (p : ascii -> bool) (text : string) (v : ascii) :
  word p text -> p v = true -> word p (text ++ str1 v).
Proof.
  intros [Hne Hall] Hv. split.
  - destruct text; [congruence | discriminate].
  - rewrite string_forall_app, Hall. simpl. now rewrite Hv.
Qed.

Lemma char_in_In (v : ascii) (l : list string) :
  char_in v l = true -> In (str1 v) l.
Proof.
  unfold char_in. intro H. apply existsb_exists in H.
  destruct H as (x & Hx & E). apply String.eqb_eq in E. now subst.
Qed.

Lemma push_shaped (st : lexer_state) :
  lexer_shaped st -> lexer_shaped (push st).
Proof.
  intros [Hr Hc]. split; [|exact I]. unfold push. simpl.
  destruct (current_type st) as [ty|]; [|exact Hr].
  apply Forall_app. split; [exact Hr|].
  constructor; [|constructor].
  unfold token_shape. simpl. destruct ty; auto.
Qed.

(** A token emitted at once: an operator or a bracket. *)
Lemma emit_shaped (st : lexer_state) (v : ascii) (ty : TokenType) :
  lexer_shaped st -> token_shape (mkToken (str1 v) ty) ->
  lexer_shaped (push (open_token (push st) v ty)).
Proof.
  intros H Ht. destruct (push_shaped H) as [Hr _].
  split; [|exact I]. unfold push at 1. simpl.
  apply Forall_app. split; [exact Hr|]. now repeat constructor.
Qed.

Lemma lex_step_shaped (st : lexer_state) (v : ascii) :
  lexer_shaped st -> lexer_shaped (lex_step st v).
Proof.
  intro H. pose proof (push_shaped H) as [Hp _].
  unfold lex_step. fold (number_char v).
  destruct (number_char v) eqn:En.
  { destruct H as [Hr Hc].
    destruct (current_type st) as [[]|] eqn:Ect;
      try (split; [exact Hp | now apply word_one]).
    split; [exact Hr|]. simpl. rewrite Ect. now apply word_extend. }
  destruct (isalpha v) eqn:Ea.
  { destruct H as [Hr Hc].
    destruct (current_type st) as [[]|] eqn:Ect;
      try (split; [exact Hp | now apply word_one]).
    split; [exact Hr|]. simpl. rewrite Ect. now apply word_extend. }
  destruct (char_in v third_priority_tokens) eqn:E3.
  { cbv zeta. destruct (sign_position _);
      (apply emit_shaped; [exact H | now apply char_in_In]). }
  destruct (char_in v second_priority_tokens) eqn:E2.
  { apply emit_shaped; [exact H | now apply char_in_In]. }
  destruct (char_in v bracket_tokens) eqn:Eb.
  { apply emit_shaped; [exact H | now apply char_in_In]. }
  exact H.
Qed.

Lemma lex_loop_shaped (s : string) (st : lexer_state) :
  lexer_shaped st -> lexer_shaped (lex_loop st s).
Proof.
  revert st; induction s as [|v s IH]; intros st H; simpl; auto.
  apply IH, lex_step_shaped, H.
Qed.

Lemma lex_shaped (s : string) : Forall token_shape (lex s).
Proof.
  assert (H0 : lexer_shaped lexer_init) by (split; [constructor|exact I]).
  exact (proj1 (push_shaped (lex_loop_shaped s H0))).
Qed.

(** Only a bracket token has the text of a bracket. *)
Lemma shape_bracket (t : Token) :
  token_shape t ->
  (is_left_bracket t || is_right_bracket t)%bool
  = TokenType_eqb (token_type t) BRACKET /\
  (is_left_bracket t && is_right_bracket t)%bool = false.
Proof.
  unfold token_shape, is_left_bracket, is_right_bracket.
  destruct t as [text ty]. simpl.
  destruct ty; simpl; intro H;
    try (destruct H as [<- | [<- | []]]; split; reflexivity);
    try contradiction.
  - (* a number *)
    destruct H as [_ H]. destruct text as [|c text]; [split; reflexivity|].
    simpl in H. apply andb_true_iff in H. destruct H as [Hc _].
    destruct (String.eqb_spec (String c text) "(") as [E|_];
      [inversion E; subst; discriminate|].
    destruct (String.eqb_spec (String c text) ")") as [E|_];
      [inversion E; subst; discriminate|].
    split; reflexivity.
  - (* a name *)
    destruct H as [_ H]. destruct text as [|c text]; [split; reflexivity|].
    simpl in H. apply andb_true_iff in H. destruct H as [Hc _].
    destruct (String.eqb_spec (String c text) "(") as [E|_];
      [inversion E; subst; discriminate|].
    destruct (String.eqb_spec (String c text) ")") as [E|_];
      [inversion E; subst; discriminate|].
    split; reflexivity.
Qed.

(* ================================================================== *)
(** * Numbers and names are taken whole *)

Lemma last_type_snoc (l : list Token) (t : Token) :
  last_type (l ++ [t]) = Some (token_type t).
Proof.
  unfold last_type. rewrite length_app. simpl.
  replace (Nat.pred (List.length l + 1)) with (List.length l) by lia.
  rewrite nth_error_app2 by lia. now rewrite Nat.sub_diag.
Qed.

Lemma separated_snoc (l : list Token) (t : Token) :
  separated l ->
  (last_type l = Some (token_type t) -> word_type (token_type t) = false) ->
  separated (l ++ [t]).
Proof.
  intros Hl Ht i t1 t2 H1 H2 Hty.
  destruct (Nat.lt_ge_cases (S i) (List.length l)) as [Hi | Hi].
  - rewrite nth_error_app1 in H1, H2 by lia. now apply (Hl i t1 t2).
  - assert (Hi' : S i = List.length l).
    { apply Nat.le_antisymm; [|exact Hi].
      assert (S i < List.length (l ++ [t]))
        by (apply nth_error_Some; congruence).
      rewrite length_app in H. simpl in H. lia. }
    rewrite nth_error_app1 in H1 by lia.
    rewrite nth_error_app2, Hi', Nat.sub_diag in H2 by lia.
    simpl in H2. injection H2 as <-.
    rewrite Hty. apply Ht. unfold last_type.
    rewrite <- Hi'. simpl. rewrite H1. simpl. now rewrite Hty.
Qed.

Lemma push_separated (st : lexer_state) :
  lexer_separated st ->
  separated (result_ (push st)) /\
  forall ty, last_type (result_ (push st)) = Some ty ->
             (current_type st = Some ty \/
              current_type st = None /\ word_type ty = false).
Proof.
  intros [Hr Hc]. unfold push. simpl.
  destruct (current_type st) as [ty|].
  - destruct Hc as [Hw Hlast]. split.
    + apply separated_snoc; [exact Hr|]. simpl. intro H. contradiction.
    + intros ty' H. rewrite last_type_snoc in H. simpl in H. left.
      congruence.
  - split; [exact Hr|]. intros ty H. right. split; [reflexivity|].
    now apply Hc.
Qed.

(** Opening a number or a name after what is not one of the same type. *)
Lemma open_separated (st : lexer_state) (v : ascii) (ty : TokenType) :
  lexer_separated st -> word_type ty = true ->
  current_type st <> Some ty ->
  lexer_separated (open_token (push st) v ty).
Proof.
  intros H Hw Hct. destruct (push_separated H) as [Hr Hlast].
  split; [exact Hr|]. simpl. split; [exact Hw|].
  intro E. destruct (Hlast ty E) as [E' | [_ E']]; congruence.
Qed.

(** Emitting an operator or a bracket. *)
Lemma emit_separated (st : lexer_state) (v : ascii) (ty : TokenType) :
  lexer_separated st -> word_type ty = false ->
  lexer_separated (push (open_token (push st) v ty)).
Proof.
  intros H Hw. destruct (push_separated H) as [Hr _].
  unfold lexer_separated.
  change (current_type (push (open_token (push st) v ty))) with (@None TokenType).
  change (result_ (push (open_token (push st) v ty)))
    with (result_ (push st) ++ [mkToken (str1 v) ty]).
  split.
  - apply separated_snoc; [exact Hr|]. now intros _.
  - intros ty' E. rewrite last_type_snoc in E.
    cbn [token_type] in E. congruence.
Qed.

Lemma lex_step_separated (st : lexer_state) (v : ascii) :
  lexer_separated st -> lexer_separated (lex_step st v).
Proof.
  intro H. unfold lex_step.
  destruct (isnumeric v || char_in v dot_tokens)%bool.
  { destruct (current_type st) as [[]|] eqn:Ect;
      try (apply open_separated; [exact H | reflexivity | congruence]).
    destruct H as [Hr Hc]. split; [exact Hr|]. simpl. now rewrite Ect in *. }
  destruct (isalpha v).
  { destruct (current_type st) as [[]|] eqn:Ect;
      try (apply open_separated; [exact H | reflexivity | congruence]).
    destruct H as [Hr Hc]. split; [exact Hr|]. simpl. now rewrite Ect in *. }
  destruct (char_in v third_priority_tokens).
  { cbv zeta. destruct (sign_position _);
      (apply emit_separated; [exact H | reflexivity]). }
  destruct (char_in v second_priority_tokens).
  { apply emit_separated; [exact H | reflexivity]. }
  destruct (char_in v bracket_tokens).
  { apply emit_separated; [exact H | reflexivity]. }
  exact H.
Qed.

Lemma lex_loop_separated (s : string) (st : lexer_state) :
  lexer_separated st -> lexer_separated (lex_loop st s).
Proof.
  revert st; induction s as [|v s IH]; intros st H; simpl; auto.
  apply IH, lex_step_separated, H.
Qed.

Lemma lex_separated (s : string) : separated (lex s).
Proof.
  assert (H0 : lexer_separated lexer_init).
  { split; [intros [|i] ? ? H; discriminate H | intros ty H; discriminate H]. }
  exact (proj1 (push_separated (lex_loop_separated s H0))).
Qed.

(* ================================================================== *)
(** * The tokens after an operator *)

(** Closes a goal [l <> []] on a list that ends with a token. *)
Ltac not_nil :=
  let E := fresh "E" in
  intro E; apply (f_equal (@List.length Token)) in E;
  rewrite ?length_app in E; simpl in E; lia.

Lemma sign_position_app (old recent : list Token) :
  recent <> [] -> sign_position (old ++ recent) = sign_position recent.
Proof.
  intro H. unfold sign_position. rewrite rev_app_distr.
  destruct (rev recent) as [|t r] eqn:E; [|reflexivity].
  apply (f_equal (@rev Token)) in E. rewrite rev_involutive in E.
  simpl in E. contradiction.
Qed.

Lemma push_same_future (old old' recent : list Token)
      (st st' : lexer_state) :
  same_future old old' recent st st' ->
  exists recent',
    same_future old old' recent' (push st) (push st') /\
    sign_position (result_ (push st)) = sign_position (result_ (push st')).
Proof.
  intros (Hr & Hr' & Hct & Hcs & Hs).
  unfold push. simpl. rewrite <- Hct, <- Hcs, Hr, Hr'.
  destruct (current_type st) as [ty|] eqn:Ect.
  - exists (recent ++ [mkToken (current_str st) ty]).
    rewrite <- !app_assoc.
    repeat split; try reflexivity.
    + intro E. exfalso. revert E. not_nil.
    + rewrite !sign_position_app; try reflexivity; not_nil.
  - exists recent. repeat split; try reflexivity.
    + intros E _. now apply Hs.
    + destruct recent as [|t recent].
      * rewrite !app_nil_r. now apply Hs.
      * rewrite !sign_position_app by discriminate. reflexivity.
Qed.

Lemma emit_same_future (old old' recent : list Token)
      (st st' : lexer_state) (v : ascii) (ty : TokenType) :
  same_future old old' recent (push st) (push st') ->
  exists recent',
    same_future old old' recent'
                (push (open_token (push st) v ty))
                (push (open_token (push st') v ty)).
Proof.
  intros (Hr & Hr' & _).
  exists (recent ++ [mkToken (str1 v) ty]).
  unfold same_future.
  change (result_ (push (open_token (push st) v ty)))
    with (result_ (push st) ++ [mkToken (str1 v) ty]).
  change (result_ (push (open_token (push st') v ty)))
    with (result_ (push st') ++ [mkToken (str1 v) ty]).
  rewrite Hr, Hr', <- !app_assoc.
  repeat split; try reflexivity.
  intro E. exfalso. revert E. not_nil.
Qed.

Lemma open_same_future (old old' recent : list Token)
      (st st' : lexer_state) (v : ascii) (ty : TokenType) :
  same_future old old' recent (push st) (push st') ->
  same_future old old' recent
              (open_token (push st) v ty) (open_token (push st') v ty).
Proof.
  intros (Hr & Hr' & _).
  repeat split; try assumption. simpl. discriminate.
Qed.

Lemma lex_step_same_future (old old' recent : list Token)
      (st st' : lexer_state) (v : ascii) :
  same_future old old' recent st st' ->
  exists recent',
    same_future old old' recent' (lex_step st v) (lex_step st' v).
Proof.
  intro H.
  destruct (push_same_future H) as (rp & Hp & Hsign).
  pose proof H as (Hr & Hr' & Hct & Hcs & Hs).
  unfold lex_step. rewrite <- Hct.
  destruct (isnumeric v || char_in v dot_tokens)%bool.
  { destruct (current_type st) as [[]|] eqn:Ect;
      try (exists rp; now apply open_same_future).
    exists recent. unfold extend_token.
    repeat split; simpl; try assumption; try congruence. }
  destruct (isalpha v).
  { destruct (current_type st) as [[]|] eqn:Ect;
      try (exists rp; now apply open_same_future).
    exists recent. unfold extend_token.
    repeat split; simpl; try assumption; try congruence. }
  destruct (char_in v third_priority_tokens).
  { cbv zeta. rewrite <- Hsign.
    destruct (sign_position _); now apply emit_same_future with (recent := rp). }
  destruct (char_in v second_priority_tokens).
  { now apply emit_same_future with (recent := rp). }
  destruct (char_in v bracket_tokens).
  { now apply emit_same_future with (recent := rp). }
  exists recent. exact H.
Qed.

Lemma lex_loop_same_future (s : string) (old old' recent : list Token)
      (st st' : lexer_state) :
  same_future old old' recent st st' ->
  exists recent',
    same_future old old' recent' (lex_loop st s) (lex_loop st' s).
Proof.
  revert recent st st'; induction s as [|v s IH]; intros recent st st' H.
  - exists recent. exact H.
  - simpl. destruct (lex_step_same_future v H) as (r1 & H1).
    exact (IH _ _ _ H1).
Qed.

(* ================================================================== *)
(** * What the lexer does not see *)

Lemma lex_loop_keep_matched (s : string) (st : lexer_state) :
  lex_loop st (keep_matched s) = lex_loop st s.
Proof.
  revert st; induction s as [|v s IH]; intro st; simpl; [reflexivity|].
  destruct (unmatched v) eqn:Hv.
  - rewrite (lex_step_unmatched v st Hv). apply IH.
  - simpl. apply IH.
Qed.

Lemma keep_matched_nil (s : string) :
  keep_matched s = "" <-> string_forall unmatched s = true.
Proof.
  induction s as [|v s IH]; simpl; [tauto|].
  destruct (unmatched v); simpl; [exact IH|].
  split; discriminate.
Qed.

(* ================================================================== *)
(** * How many tokens an answer can report *)

Section AnswerBound.

Variable token_list : list Token.

Lemma skipn_nth_error (l : list Token) (pos : nat) (t : Token) :
  nth_error l pos = Some t -> skipn pos l = t :: skipn (S pos) l.
Proof.
  revert pos; induction l as [|x l IH]; intros [|pos] H; try discriminate.
  - injection H as ->. reflexivity.
  - simpl in *. now apply IH.
Qed.

Lemma brackets_from_step (pos : nat) :
  brackets_from token_list (pos + 1) <= brackets_from token_list pos.
Proof.
  unfold brackets_from. rewrite Nat.add_1_r.
  destruct (nth_error token_list pos) as [t|] eqn:E.
  - rewrite (skipn_nth_error _ _ E). simpl.
    destruct (TokenType_eqb _ _); simpl; lia.
  - apply nth_error_None in E.
    rewrite !skipn_all2 by lia. reflexivity.
Qed.

Lemma brackets_from_le (p q : nat) :
  p <= q -> brackets_from token_list q <= brackets_from token_list p.
Proof.
  induction 1 as [|q _ IH]; [reflexivity|].
  pose proof (brackets_from_step q) as H. rewrite Nat.add_1_r in H. lia.
Qed.

Lemma brackets_from_bracket (pos : nat) (t : Token) :
  token_at token_list pos = Ok t ->
  TokenType_eqb (token_type t) BRACKET = true ->
  brackets_from token_list pos = S (brackets_from token_list (pos + 1)).
Proof.
  intros Ht Hty. apply token_at_Ok in Ht.
  unfold brackets_from. rewrite Nat.add_1_r, (skipn_nth_error _ _ Ht).
  simpl. now rewrite Hty.
Qed.

(** Bounds the answers of the calls in the context by the hypotheses of
    the induction. *)
Ltac call_bounds :=
  repeat match goal with
         | E : parse_first_priority _ _ _ = Ok (_, _),
           H : forall pos e n, parse_first_priority _ _ pos = Ok (e, n) -> _
           |- _ => apply H in E
         | E : parse_sign _ _ _ = Ok (_, _),
           H : forall pos e n, parse_sign _ _ pos = Ok (e, n) -> _
           |- _ => apply H in E
         | E : parse_bracket _ _ _ = Ok (_, _),
           H : forall pos e n, parse_bracket _ _ pos = Ok (e, n) -> _
           |- _ => apply H in E
         | E : parse_constant_or_function _ _ _ = Ok (_, _),
           H : forall pos e n,
               parse_constant_or_function _ _ pos = Ok (e, n) -> _
           |- _ => apply H in E
         | E : parse_second_priority _ _ _ _ = Ok (_, _),
           H : forall pos l e n,
               parse_second_priority _ _ pos l = Ok (e, n) -> _
           |- _ => apply H in E
         | E : parse_third_priority _ _ _ _ = Ok (_, _),
           H : forall pos l e n,
               parse_third_priority _ _ pos l = Ok (e, n) -> _
           |- _ => apply H in E
         | E : parse_expr _ _ _ = Ok (_, _),
           H : forall pos e n, parse_expr _ _ pos = Ok (e, n) -> _
           |- _ => apply H in E
         end.

Lemma answer_bound (fuel : nat) :
  (forall pos e n,
      parse_first_priority token_list fuel pos = Ok (e, n) ->
      pos + n <= token_bound token_list pos) /\
  (forall pos e n,
      parse_sign token_list fuel pos = Ok (e, n) -> pos + n <= token_bound token_list pos) /\
  (forall pos e n,
      parse_bracket token_list fuel pos = Ok (e, n) ->
      pos + n <= token_bound token_list pos) /\
  (forall pos e n,
      parse_constant_or_function token_list fuel pos = Ok (e, n) ->
      pos + n <= token_bound token_list pos) /\
  (forall pos l e n,
      parse_second_priority token_list fuel pos l = Ok (e, n) ->
      pos + n <= token_bound token_list pos) /\
  (forall pos l e n,
      parse_third_priority token_list fuel pos l = Ok (e, n) ->
      pos + n <= token_bound token_list pos) /\
  (forall pos e0 n0 e n,
      parse_third_priority_loop token_list fuel pos e0 n0 = Ok (e, n) ->
      pos + n0 + 1 <= token_bound token_list pos -> pos + n + 1 <= token_bound token_list pos) /\
  (forall pos e n,
      parse_expr token_list fuel pos = Ok (e, n) -> pos + n <= token_bound token_list pos) /\
  (forall pos e0 n0 e n,
      parse_expr_loop token_list fuel pos e0 n0 = Ok (e, n) ->
      pos + n0 <= token_bound token_list pos -> pos + n <= token_bound token_list pos).
Proof.
  induction fuel as [|fuel IH].
  - repeat split; intros; discriminate.
  - destruct IH as (H1 & H2 & H3 & H4 & H5 & H6 & H7 & H8 & H9).
    unfold token_bound in *.
    assert (Hstep := brackets_from_step).
    assert (Hle := brackets_from_le).
    repeat split.
    + intros pos e n H.
      read_call H; try (injection H as <- <-); call_bounds; to_arith; lia.
    + intros pos e n H. read_call H. injection H as <- <-.
      call_bounds. specialize (Hstep pos). lia.
    + intros pos e n H. read_call H. injection H as <- <-.
      unfold py_assert in E0.
      destruct (TokenType_eqb (token_type a) BRACKET) eqn:Eb;
        [|discriminate E0].
      rewrite (brackets_from_bracket _ E Eb).
      call_bounds. lia.
    + intros pos e n H. read_call H; injection H as <- <-;
        call_bounds; specialize (Hstep pos); to_arith; lia.
    + intros pos l e n H. read_call H. injection H as <- <-.
      call_bounds. specialize (Hstep pos). lia.
    + intros pos l e n H. read_call H. injection H as <- <-.
      call_bounds. specialize (Hstep pos).
      apply H7 in E1; lia.
    + intros pos e0 n0 e n H Hn0. read_call H;
        try (injection H as <- <-; exact Hn0).
      call_bounds.
      specialize (Hle pos (n0 + pos + 1) ltac:(lia)).
      apply H7 in H; lia.
    + intros pos e n H. read_call H. call_bounds.
      apply H9 in H; lia.
    + intros pos e0 n0 e n H Hn0. read_call H;
        try (injection H as <- <-; exact Hn0);
        call_bounds;
        specialize (Hle pos (n0 + pos) ltac:(lia));
        apply H9 in H; lia.
Qed.

End AnswerBound.

(* ================================================================== *)
(** * The exceptions of the parser *)

(** Reads a hypothesis [H : ... = Raise _] about one call of a parser
    function down to the call or the statement that raises. *)
Ltac read_raise H :=
  simpl in H;
  repeat (match type of H with
          | bind ?r _ = Raise _ =>
              let a := fresh "a" in
              let E := fresh "E" in
              destruct r as [a| |] eqn:E; [| |discriminate H];
              [ match type of a with
                | (_ * _)%type => destruct a as [? ?]
                | _ => idtac
                end
              | ]
          | (if ?c then _ else _) = Raise _ =>
              let E := fresh "E" in destruct c eqn:E
          | parse_number _ _ = Raise _ => unfold parse_number in H
          | Ok _ = Raise _ => discriminate H
          | OutOfFuel = Raise _ => discriminate H
          end; simpl in H).

Section ParserErrors.

Variable token_list : list Token.

(** Only bracket tokens have the text of the opening bracket. *)
Hypothesis left_brackets :
  forall t, In t token_list -> is_left_bracket t = true ->
            token_type t = BRACKET.

Lemma token_at_Raise (pos : nat) (e : exn) :
  token_at token_list pos = Raise e -> e = IndexError.
Proof.
  unfold token_at. destruct (nth_error token_list pos); congruence.
Qed.

(** Settles a goal [parse_error e] from the call that raised [e]. *)
Ltac settle H1 H2 H4 H5 H6 H7 H8 H9 :=
  match goal with
  | E : token_at _ _ = Raise ?e |- parse_error ?e =>
      left; exact (token_at_Raise _ E)
  | |- parse_error ValueError => right; reflexivity
  | E : _ = Raise ?e |- parse_error ?e =>
      first [ exact (H1 _ _ E) | exact (H2 _ _ E) | exact (H4 _ _ E)
            | exact (H5 _ _ _ E) | exact (H6 _ _ _ E)
            | exact (H7 _ _ _ _ E) | exact (H8 _ _ E)
            | exact (H9 _ _ _ _ E) ]
  end.

Lemma raises (fuel : nat) :
  (forall pos e,
      parse_first_priority token_list fuel pos = Raise e -> parse_error e) /\
  (forall pos e,
      parse_sign token_list fuel pos = Raise e -> parse_error e) /\
  (forall pos e,
      (forall t, token_at token_list pos = Ok t -> token_type t = BRACKET) ->
      parse_bracket token_list fuel pos = Raise e -> parse_error e) /\
  (forall pos e,
      parse_constant_or_function token_list fuel pos = Raise e ->
      parse_error e) /\
  (forall pos l e,
      parse_second_priority token_list fuel pos l = Raise e ->
      parse_error e) /\
  (forall pos l e,
      parse_third_priority token_list fuel pos l = Raise e ->
      parse_error e) /\
  (forall pos e0 n0 e,
      parse_third_priority_loop token_list fuel pos e0 n0 = Raise e ->
      parse_error e) /\
  (forall pos e,
      parse_expr token_list fuel pos = Raise e -> parse_error e) /\
  (forall pos e0 n0 e,
      parse_expr_loop token_list fuel pos e0 n0 = Raise e -> parse_error e).
Proof.
  induction fuel as [|fuel IH].
  - repeat split; intros; discriminate.
  - destruct IH as (H1 & H2 & H3 & H4 & H5 & H6 & H7 & H8 & H9).
    repeat split.
    + intros pos e H. read_raise H; try (injection H as <-);
        try settle H1 H2 H4 H5 H6 H7 H8 H9.
      apply (H3 pos e); [|exact H].
      intros t Ht. rewrite E in Ht. injection Ht as <-.
      now apply eqb_type_true.
    + intros pos e H. read_raise H; try (injection H as <-);
        settle H1 H2 H4 H5 H6 H7 H8 H9.
    + intros pos e Hb H. read_raise H; try (injection H as <-);
        first [ settle H1 H2 H4 H5 H6 H7 H8 H9
              | rewrite (Hb _ eq_refl) in *; discriminate ].
    + intros pos e H. read_raise H; try (injection H as <-);
        try settle H1 H2 H4 H5 H6 H7 H8 H9.
      match goal with
      | Eb : parse_bracket _ _ _ = Raise ?x |- _ =>
          apply (H3 (pos + 1) x); [|exact Eb]
      end.
      match goal with
      | Et : token_at _ (pos + 1) = Ok ?a, El : is_left_bracket ?a = true
        |- _ =>
          intros t Ht; rewrite Et in Ht; injection Ht as <-;
          apply left_brackets; [|exact El];
          apply token_at_Ok in Et; now apply nth_error_In in Et
      end.
    + intros pos l e H. read_raise H; try (injection H as <-);
        settle H1 H2 H4 H5 H6 H7 H8 H9.
    + intros pos l e H. read_raise H; try (injection H as <-);
        settle H1 H2 H4 H5 H6 H7 H8 H9.
    + intros pos e0 n0 e H. read_raise H; try (injection H as <-);
        settle H1 H2 H4 H5 H6 H7 H8 H9.
    + intros pos e H. read_raise H; try (injection H as <-);
        settle H1 H2 H4 H5 H6 H7 H8 H9.
    + intros pos e0 n0 e H. read_raise H; try (injection H as <-);
        settle H1 H2 H4 H5 H6 H7 H8 H9.
Qed.

End ParserErrors.

(* ================================================================== *)
(** * Where the parts of a tree come from *)

Section ProvenanceFacts.

Variable token_list : list Token.

Lemma token_text_at (pos : nat) (t : Token) (types : list TokenType) :
  token_at token_list pos = Ok t ->
  type_in (token_type t) types = true ->
  token_text token_list types (token_str t).
Proof.
  intros Ht Hty. exists t. repeat split; [|exact Hty].
  apply token_at_Ok in Ht. now apply nth_error_In in Ht.
Qed.

Lemma typed_at_eqb (pos : nat) (t : Token) (ty : TokenType)
      (types : list TokenType) :
  token_at token_list pos = Ok t ->
  TokenType_eqb (token_type t) ty = true ->
  type_in ty types = true ->
  typed_at token_list pos types.
Proof.
  intros Ht Hty Hin t' Ht'. rewrite Ht in Ht'. injection Ht' as <-.
  apply eqb_type_true in Hty. now rewrite Hty.
Qed.

Lemma provenance (fuel : nat) :
  (forall pos e n,
      parse_first_priority token_list fuel pos = Ok (e, n) ->
      from_tokens token_list e) /\
  (forall pos e n,
      typed_at token_list pos operator_types ->
      parse_sign token_list fuel pos = Ok (e, n) -> from_tokens token_list e) /\
  (forall pos e n,
      parse_bracket token_list fuel pos = Ok (e, n) -> from_tokens token_list e) /\
  (forall pos e n,
      typed_at token_list pos [CONSTANT_OR_FUNCTION_NAME] ->
      parse_constant_or_function token_list fuel pos = Ok (e, n) ->
      from_tokens token_list e) /\
  (forall pos l e n,
      typed_at token_list pos operator_types -> from_tokens token_list l ->
      parse_second_priority token_list fuel pos l = Ok (e, n) ->
      from_tokens token_list e) /\
  (forall pos l e n,
      typed_at token_list pos operator_types -> from_tokens token_list l ->
      parse_third_priority token_list fuel pos l = Ok (e, n) ->
      from_tokens token_list e) /\
  (forall pos e0 n0 e n,
      from_tokens token_list e0 ->
      parse_third_priority_loop token_list fuel pos e0 n0 = Ok (e, n) ->
      from_tokens token_list e) /\
  (forall pos e n,
      parse_expr token_list fuel pos = Ok (e, n) -> from_tokens token_list e) /\
  (forall pos e0 n0 e n,
      from_tokens token_list e0 ->
      parse_expr_loop token_list fuel pos e0 n0 = Ok (e, n) ->
      from_tokens token_list e).
Proof.
  induction fuel as [|fuel IH].
  - repeat split; intros; discriminate.
  - destruct IH as (H1 & H2 & H3 & H4 & H5 & H6 & H7 & H8 & H9).
    repeat split.
    + intros pos e n H. read_call H.
      * exact (H3 _ _ _ H).
      * injection E as <-. injection H as <- _. right.
        now apply token_text_at with (pos := pos).
      * apply (H4 pos e n); [|exact H].
        now apply typed_at_eqb with (t := a)
                                    (ty := CONSTANT_OR_FUNCTION_NAME).
      * apply (H2 pos e n); [|exact H].
        now apply typed_at_eqb with (t := a) (ty := SIGN).
    + intros pos e n Hty H. read_call H. injection H as <- _.
      repeat split.
      * apply token_text_at with (pos := pos); [exact E|now apply Hty].
      * now left.
      * exact (H1 _ _ _ E0).
    + intros pos e n H. read_call H. injection H as <- _.
      exact (H8 _ _ _ E1).
    + intros pos e n Hty H. read_call H; injection H as <- _.
      * apply token_text_at with (pos := pos); [exact E|now apply Hty].
      * split; [|exact (H3 _ _ _ E3)].
        apply token_text_at with (pos := pos); [exact E|now apply Hty].
      * apply token_text_at with (pos := pos); [exact E|now apply Hty].
    + intros pos l e n Hty Hl H. read_call H. injection H as <- _.
      repeat split; [|exact Hl|exact (H1 _ _ _ E0)].
      apply token_text_at with (pos := pos); [exact E|now apply Hty].
    + intros pos l e n Hty Hl H. read_call H. injection H as <- _.
      repeat split; [|exact Hl|].
      * apply token_text_at with (pos := pos); [exact E|now apply Hty].
      * apply (H7 _ _ _ _ _ (H1 _ _ _ E0) E1).
    + intros pos e0 n0 e n He0 H. read_call H;
        try (injection H as <- _; exact He0).
      eapply H7; [|exact H].
      eapply H5; [|exact He0|exact E2].
      now apply typed_at_eqb with (t := a) (ty := SECOND_PRIORITY_OP).
    + intros pos e n H. read_call H.
      exact (H9 _ _ _ _ _ (H1 _ _ _ E) H).
    + intros pos e0 n0 e n He0 H. read_call H;
        try (injection H as <- _; exact He0).
      * eapply H9; [|exact H].
        eapply H6; [|exact He0|exact E2].
        now apply typed_at_eqb with (t := a) (ty := THIRD_PRIORITY_OP).
      * eapply H9; [|exact H].
        eapply H5; [|exact He0|exact E3].
        now apply typed_at_eqb with (t := a) (ty := SECOND_PRIORITY_OP).
Qed.

End ProvenanceFacts.

(* ================================================================== *)
(** * The tree of a well-formed expression *)

(** The loops stop where no operator of theirs goes on. *)
Lemma third_priority_loop_stops (tl pre post : list Token) (pos n : nat)
      (e : expr) :
  tl = pre ++ post -> List.length pre = pos + n + 1 -> no_second post ->
  parse_third_priority_loop tl 1 pos e n = Ok (e, n).
Proof.
  intros Htl Hpre Hpost. cbn [parse_third_priority_loop].
  destruct post as [|t post].
  - rewrite app_nil_r in Htl. subst tl.
    now rewrite token_at_end by exact Hpre.
  - destruct (token_at_middle pre post t Htl Hpre) as [Et El].
    destruct Hpost as [Hty _]. apply eqb_type_false in Hty.
    replace (n + pos + 1) with (pos + n + 1) by lia.
    run. reflexivity.
Qed.

Lemma expr_loop_stops (tl pre post : list Token) (pos n : nat) (e : expr) :
  tl = pre ++ post -> List.length pre = pos + n -> ends post ->
  parse_expr_loop tl 1 pos e n = Ok (e, n).
Proof.
  intros Htl Hpre Hpost. cbn [parse_expr_loop].
  destruct post as [|t post].
  - rewrite app_nil_r in Htl. subst tl.
    now rewrite token_at_end by exact Hpre.
  - destruct (token_at_middle pre post t Htl Hpre) as [Et El].
    destruct Hpost as [Hty _].
    replace (n + pos) with (pos + n) by lia.
    run. reflexivity.
Qed.

Lemma product_operator_follows (op : Token) (rest : list Token) :
  product_operator op -> follows (op :: rest).
Proof.
  intros [_ Hin]. unfold follows, is_left_bracket.
  simpl in Hin. destruct Hin as [<- | [<- | []]]; reflexivity.
Qed.

Lemma sum_operator_no_second (op : Token) (rest : list Token) :
  sum_operator op -> no_second (op :: rest).
Proof.
  intros [Hty Hin]. unfold no_second, is_left_bracket. rewrite Hty.
  split; [discriminate|].
  simpl in Hin. destruct Hin as [<- | [<- | []]]; reflexivity.
Qed.

Lemma rparen_ends (post : list Token) : ends (rparen :: post).
Proof. split; reflexivity. Qed.

(** An expression in brackets, once its tokens are read as [e]. *)
Lemma inner_parsed (inner : list Token) (e : expr) :
  expression_parsed inner e ->
  forall tl pre post pos,
    tl = pre ++ inner ++ rparen :: post -> List.length pre = pos ->
    exists fuel, parse_expr tl fuel pos = Ok (e, List.length inner).
Proof.
  intros H tl pre post pos Htl Hpre.
  apply (H tl pre (rparen :: post) pos); try assumption.
  - now apply ends_no_second, rparen_ends.
  - exists 1. apply expr_loop_stops with (pre := pre ++ inner)
                                         (post := rparen :: post).
    + subst tl. same_list.
    + rewrite length_app. lia.
    + apply rparen_ends.
Qed.

Lemma tree_parsed :
  (forall ts e, operand_tree ts e -> operand_parsed ts e) /\
  (forall ts e, term_tree ts e -> term_parsed ts e) /\
  (forall ts e, expression_tree ts e -> expression_parsed ts e).
Proof.
  apply tree_ind.
  - (* a number *)
    intros t Hty tl pre post pos Htl Hpre Hpost.
    destruct (token_at_middle (tl := tl) pre post t) with (pos := pos)
      as [Et El]; [subst tl; same_list | exact Hpre |].
    exists 1.
    cbn [parse_first_priority]. run. unfold parse_number. run. reflexivity.
  - (* a constant *)
    intros t Hty tl pre post pos Htl Hpre Hpost.
    destruct (token_at_middle (tl := tl) pre post t) with (pos := pos)
      as [Et El]; [subst tl; same_list | exact Hpre |].
    exists 2.
    cbn [parse_first_priority parse_constant_or_function]. run.
    destruct post as [|t' post].
    + assert (Eq : Nat.eqb (pos + 1) (List.length tl) = true).
      { apply Nat.eqb_eq. subst tl pos. rewrite !length_app.
        cbn [List.length]. lia. }
      run. reflexivity.
    + assert (Eq : Nat.eqb (pos + 1) (List.length tl) = false).
      { apply Nat.eqb_neq. subst tl pos. rewrite !length_app.
        cbn [List.length]. lia. }
      destruct (token_at_middle (tl := tl) (pre ++ [t]) post t')
        with (pos := pos + 1) as [Et' _];
        [subst tl; same_list | rewrite length_app; cbn [List.length]; lia |].
      cbn [follows] in Hpost.
      run. reflexivity.
  - (* a function applied to an expression in brackets *)
    intros t inner e Hty _ Hinner tl pre post pos Htl Hpre Hpost.
    destruct (token_at_middle (tl := tl) pre
                (lparen :: inner ++ rparen :: post) t) with (pos := pos)
      as [Et El]; [subst tl; same_list | exact Hpre |].
    destruct (token_at_middle (tl := tl) (pre ++ [t])
                (inner ++ rparen :: post) lparen) with (pos := pos + 1)
      as [Et' _];
      [subst tl; same_list | rewrite length_app; cbn [List.length]; lia |].
    assert (Eq : Nat.eqb (pos + 1) (List.length tl) = false).
    { apply Nat.eqb_neq. subst tl pos. rewrite !length_app.
      cbn [List.length]. rewrite length_app. cbn [List.length]. lia. }
    assert (Elb : is_left_bracket lparen = true) by reflexivity.
    destruct (inner_parsed Hinner (tl := tl) (pre ++ [t; lparen]) post
                           (pos := pos + 1 + 1))
      as (f1 & E1).
    { subst tl. same_list. }
    { rewrite length_app. cbn [List.length]. lia. }
    exists (S (S (S f1))).
    cbn [parse_first_priority parse_constant_or_function parse_bracket].
    run. same_answer.
  - (* an expression in brackets *)
    intros inner e _ Hinner tl pre post pos Htl Hpre Hpost.
    destruct (token_at_middle (tl := tl) pre (inner ++ rparen :: post) lparen)
      with (pos := pos) as [Et El]; [subst tl; same_list | exact Hpre |].
    destruct (inner_parsed Hinner (tl := tl) (pre ++ [lparen]) post
                           (pos := pos + 1))
      as (f1 & E1).
    { subst tl. same_list. }
    { rewrite length_app. cbn [List.length]. lia. }
    exists (S (S f1)).
    cbn [parse_first_priority parse_bracket].
    run. same_answer.
  - (* a signed operand *)
    intros t ts e Hty _ Hts tl pre post pos Htl Hpre Hpost.
    destruct (token_at_middle (tl := tl) pre (ts ++ post) t) with (pos := pos)
      as [Et El]; [subst tl; same_list | exact Hpre |].
    destruct (Hts tl (pre ++ [t]) post (pos + 1)) as (f1 & E1).
    { subst tl. same_list. }
    { rewrite length_app. cbn [List.length]. lia. }
    { exact Hpost. }
    exists (S (S f1)).
    cbn [parse_first_priority parse_sign].
    run. same_answer.
  - (* a term of one operand *)
    intros ts e _ Hts. split.
    + intros tl pre post pos r Htl Hpre Hpost [f0 Hcont].
      destruct (Hts tl pre post pos Htl Hpre Hpost) as (f1 & E1).
      remember (Nat.max f1 f0) as g eqn:Hg.
      boost E1 g. boost Hcont g.
      exists (S g). cbn [parse_expr]. run. reflexivity.
    + intros tl pre post pos op left e2 n2 Htl Hpre Hop Hpost [f0 Hcont].
      destruct (Hts tl pre post (pos + 1) Htl Hpre Hpost) as (f1 & E1).
      remember (Nat.max f1 f0) as g eqn:Hg.
      boost E1 g. boost Hcont g.
      exists (S g). cbn [parse_third_priority]. run. reflexivity.
  - (* a term, an operator of products and an operand *)
    intros ts e op ts' e' _ [T1 T2] Hop _ Hts'.
    pose proof Hop as [Hty _].
    split.
    + intros tl pre post pos r Htl Hpre Hpost [f0 Hcont].
      apply (T1 tl pre (op :: ts' ++ post) pos r);
        [subst tl; same_list | exact Hpre
        | now apply product_operator_follows |].
      destruct (token_at_middle (tl := tl) (pre ++ ts) (ts' ++ post) op)
        with (pos := pos + List.length ts) as [Et El];
        [subst tl; same_list | rewrite length_app; lia |].
      destruct (Hts' tl (pre ++ ts ++ [op]) post
                     (pos + List.length ts + 1))
        as (f1 & E1).
      { subst tl. same_list. }
      { rewrite !length_app. cbn [List.length]. lia. }
      { exact Hpost. }
      assert (Es : parse_second_priority tl (S f1) (pos + List.length ts) e
                   = Ok (BinaryExpression e (token_str op) e',
                         List.length ts' + 1)).
      { cbn [parse_second_priority]. run. reflexivity. }
      replace (List.length (ts ++ op :: ts'))
        with (List.length ts + (List.length ts' + 1)) in Hcont
        by (rewrite length_app; cbn [List.length]; lia).
      remember (Nat.max (S f1) f0) as g eqn:Hg.
      boost Es g. boost Hcont g.
      exists (S g). cbn [parse_expr_loop].
      replace (List.length ts + pos) with (pos + List.length ts) by lia.
      run. reflexivity.
    + intros tl pre post pos op0 left e2 n2 Htl Hpre Hop0 Hpost [f0 Hcont].
      apply (T2 tl pre (op :: ts' ++ post) pos op0 left e2 n2);
        [subst tl; same_list | exact Hpre | exact Hop0
        | now apply product_operator_follows |].
      destruct (token_at_middle (tl := tl) (pre ++ ts) (ts' ++ post) op)
        with (pos := pos + List.length ts + 1) as [Et El];
        [subst tl; same_list | rewrite length_app; lia |].
      destruct (Hts' tl (pre ++ ts ++ [op]) post
                     (pos + List.length ts + 1 + 1))
        as (f1 & E1).
      { subst tl. same_list. }
      { rewrite !length_app. cbn [List.length]. lia. }
      { exact Hpost. }
      assert (Es : parse_second_priority tl (S f1)
                     (pos + List.length ts + 1) e
                   = Ok (BinaryExpression e (token_str op) e',
                         List.length ts' + 1)).
      { cbn [parse_second_priority]. run. reflexivity. }
      replace (List.length (ts ++ op :: ts'))
        with (List.length ts + (List.length ts' + 1)) in Hcont
        by (rewrite length_app; cbn [List.length]; lia).
      remember (Nat.max (S f1) f0) as g eqn:Hg.
      boost Es g. boost Hcont g.
      exists (S g). cbn [parse_third_priority_loop].
      replace (List.length ts + pos + 1) with (pos + List.length ts + 1)
        by lia.
      run. reflexivity.
  - (* an expression of one term *)
    intros ts e _ [T1 _] tl pre post pos r Htl Hpre Hpost Hcont.
    apply (T1 tl pre post pos r); try assumption.
    now apply no_second_follows.
  - (* an expression, an operator of sums and a term *)
    intros ts e op ts' e' _ Hts Hop _ [_ T2]
           tl pre post pos r Htl Hpre Hpost [f0 Hcont].
    pose proof Hop as [Hty _].
    apply (Hts tl pre (op :: ts' ++ post) pos r);
      [subst tl; same_list | exact Hpre
      | now apply sum_operator_no_second |].
    destruct (token_at_middle (tl := tl) (pre ++ ts) (ts' ++ post) op)
      with (pos := pos + List.length ts) as [Et El];
      [subst tl; same_list | rewrite length_app; lia |].
    destruct (T2 tl (pre ++ ts ++ [op]) post (pos + List.length ts) op e
                 e' (List.length ts'))
      as (f3 & E3).
    { subst tl. same_list. }
    { rewrite !length_app. cbn [List.length]. lia. }
    { exact Et. }
    { now apply no_second_follows. }
    { exists 1.
      apply third_priority_loop_stops
        with (pre := pre ++ ts ++ op :: ts') (post := post).
      - subst tl. same_list.
      - repeat (progress (rewrite ?length_app; cbn [List.length])). lia.
      - exact Hpost. }
    replace (List.length (ts ++ op :: ts'))
      with (List.length ts + (List.length ts' + 1)) in Hcont
      by (rewrite length_app; cbn [List.length]; lia).
    remember (Nat.max f3 f0) as g eqn:Hg.
    boost E3 g. boost Hcont g.
    exists (S g). cbn [parse_expr_loop].
    replace (List.length ts + pos) with (pos + List.length ts) by lia.
    run. reflexivity.
Qed.

(** [parse_expr] on the tokens of an expression, alone or followed by a
    closing bracket. *)
Lemma expression_tree_parsed (ts : list Token) (e : expr) :
  expression_tree ts e ->
  forall tl pre post pos,
    tl = pre ++ ts ++ post -> List.length pre = pos -> ends post ->
    exists fuel, parse_expr tl fuel pos = Ok (e, List.length ts).
Proof.
  intros H tl pre post pos Htl Hpre Hpost.
  apply (proj2 (proj2 tree_parsed) ts e H tl pre post pos); try assumption.
  - now apply ends_no_second.
  - exists 1. apply expr_loop_stops with (pre := pre ++ ts) (post := post).
    + subst tl. same_list.
    + rewrite length_app. lia.
    + exact Hpost.
Qed.

(* ================================================================== *)
(** * The parser does not look back *)

Section Shift.

Variables pre token_list : list Token.

Lemma token_at_shift (p q : nat) :
  p = List.length pre + q ->
  token_at (pre ++ token_list) p = token_at token_list q.
Proof.
  intros ->. unfold token_at. rewrite nth_error_app2 by lia.
  now replace (List.length pre + q - List.length pre) with q by lia.
Qed.

Lemma eqb_length_shift (p q : nat) :
  p = List.length pre + q ->
  Nat.eqb p (List.length (pre ++ token_list))
  = Nat.eqb q (List.length token_list).
Proof.
  intros ->. rewrite length_app.
  destruct (Nat.eqb_spec q (List.length token_list)) as [E | E].
  - apply Nat.eqb_eq. lia.
  - apply Nat.eqb_neq. lia.
Qed.

Lemma ltb_length_shift (p q : nat) :
  p = List.length pre + q ->
  Nat.ltb p (List.length (pre ++ token_list))
  = Nat.ltb q (List.length token_list).
Proof.
  intros ->. rewrite length_app.
  destruct (Nat.ltb_spec q (List.length token_list)) as [E | E].
  - apply Nat.ltb_lt. lia.
  - apply Nat.ltb_ge. lia.
Qed.

(** Moves one call, one test or one access from the long list to the
    short one, or opens the first step the two sides share. *)
Ltac shift_step H1 H2 H3 H4 H5 H6 H7 H8 H9 :=
  first
    [ match goal with
      | |- context [token_at (pre ++ token_list) ?p] =>
          match goal with
          | |- context [token_at token_list ?q] =>
              rewrite (@token_at_shift p q ltac:(lia))
          end
      end
    | match goal with
      | |- context [Nat.eqb ?p (List.length (pre ++ token_list))] =>
          match goal with
          | |- context [Nat.eqb ?q (List.length token_list)] =>
              rewrite (@eqb_length_shift p q ltac:(lia))
          end
      end
    | match goal with
      | |- context [Nat.ltb ?p (List.length (pre ++ token_list))] =>
          match goal with
          | |- context [Nat.ltb ?q (List.length token_list)] =>
              rewrite (@ltb_length_shift p q ltac:(lia))
          end
      end
    | match goal with
      | |- context [parse_number (pre ++ token_list) ?p] =>
          unfold parse_number
      end
    | match goal with
      | |- context [parse_first_priority (pre ++ token_list) ?fuel ?p] =>
          match goal with
          | |- context [parse_first_priority token_list fuel ?q] =>
              rewrite (H1 p q) by lia
          end
      end
    | match goal with
      | |- context [parse_sign (pre ++ token_list) ?fuel ?p] =>
          match goal with
          | |- context [parse_sign token_list fuel ?q] =>
              rewrite (H2 p q) by lia
          end
      end
    | match goal with
      | |- context [parse_bracket (pre ++ token_list) ?fuel ?p] =>
          match goal with
          | |- context [parse_bracket token_list fuel ?q] =>
              rewrite (H3 p q) by lia
          end
      end
    | match goal with
      | |- context [parse_constant_or_function (pre ++ token_list)
                                               ?fuel ?p] =>
          match goal with
          | |- context [parse_constant_or_function token_list fuel ?q] =>
              rewrite (H4 p q) by lia
          end
      end
    | match goal with
      | |- context [parse_expr (pre ++ token_list) ?fuel ?p] =>
          match goal with
          | |- context [parse_expr token_list fuel ?q] =>
              rewrite (H8 p q) by lia
          end
      end
    | match goal with
      | |- context [parse_second_priority (pre ++ token_list)
                                          ?fuel ?p ?l] =>
          match goal with
          | |- context [parse_second_priority token_list fuel ?q l] =>
              rewrite (H5 p q l) by lia
          end
      end
    | match goal with
      | |- context [parse_third_priority (pre ++ token_list)
                                         ?fuel ?p ?l] =>
          match goal with
          | |- context [parse_third_priority token_list fuel ?q l] =>
              rewrite (H6 p q l) by lia
          end
      end
    | match goal with
      | |- context [parse_third_priority_loop (pre ++ token_list)
                                              ?fuel ?p ?e ?n] =>
          match goal with
          | |- context [parse_third_priority_loop token_list fuel ?q e n] =>
              rewrite (H7 p q e n) by lia
          end
      end
    | match goal with
      | |- context [parse_expr_loop (pre ++ token_list) ?fuel ?p ?e ?n] =>
          match goal with
          | |- context [parse_expr_loop token_list fuel ?q e n] =>
              rewrite (H9 p q e n) by lia
          end
      end
    | match goal with
      | |- bind ?r _ = bind ?r _ =>
          destruct r as [[]| |]; cbn [bind]; try reflexivity
      | |- (if ?c then _ else _) = (if ?c then _ else _) => destruct c
      end
    | reflexivity ].

Lemma shift (fuel : nat) :
  (forall p q, p = List.length pre + q ->
     parse_first_priority (pre ++ token_list) fuel p
     = parse_first_priority token_list fuel q) /\
  (forall p q, p = List.length pre + q ->
     parse_sign (pre ++ token_list) fuel p = parse_sign token_list fuel q) /\
  (forall p q, p = List.length pre + q ->
     parse_bracket (pre ++ token_list) fuel p
     = parse_bracket token_list fuel q) /\
  (forall p q, p = List.length pre + q ->
     parse_constant_or_function (pre ++ token_list) fuel p
     = parse_constant_or_function token_list fuel q) /\
  (forall p q l, p = List.length pre + q ->
     parse_second_priority (pre ++ token_list) fuel p l
     = parse_second_priority token_list fuel q l) /\
  (forall p q l, p = List.length pre + q ->
     parse_third_priority (pre ++ token_list) fuel p l
     = parse_third_priority token_list fuel q l) /\
  (forall p q e n, p = List.length pre + q ->
     parse_third_priority_loop (pre ++ token_list) fuel p e n
     = parse_third_priority_loop token_list fuel q e n) /\
  (forall p q, p = List.length pre + q ->
     parse_expr (pre ++ token_list) fuel p = parse_expr token_list fuel q) /\
  (forall p q e n, p = List.length pre + q ->
     parse_expr_loop (pre ++ token_list) fuel p e n
     = parse_expr_loop token_list fuel q e n).
Proof.
  induction fuel as [|fuel IH].
  - repeat split; reflexivity.
  - destruct IH as (H1 & H2 & H3 & H4 & H5 & H6 & H7 & H8 & H9).
    repeat split; intros;
      cbn [parse_first_priority parse_sign parse_bracket
           parse_constant_or_function parse_second_priority
           parse_third_priority parse_third_priority_loop parse_expr
           parse_expr_loop];
      repeat shift_step H1 H2 H3 H4 H5 H6 H7 H8 H9.
Qed.

End Shift.

Lemma parse_shift (pre token_list : list Token) (pos : nat) :
  parse (pre ++ token_list) (List.length pre + pos) = parse token_list pos.
Proof.
  unfold parse at 1.
  rewrite (proj1 (proj2 (proj2 (proj2 (proj2 (proj2 (proj2 (proj2
             (shift pre token_list (parse_fuel (pre ++ token_list))))))))))
             (List.length pre + pos) pos eq_refl).
  symmetry.
  apply (@parse_any_fuel token_list (parse_fuel (pre ++ token_list)) pos _
                         eq_refl).
  apply (enough_fuel token_list (parse_fuel (pre ++ token_list))).
  unfold parse_fuel. rewrite length_app. lia.
Qed.

(* ================================================================== *)
(** * Trees without names *)

Lemma eval_arithmetic (object : Type) (runtime : PyRuntime object)
      (e : expr) :
  arithmetic e ->
  (exists f, eval e = Ok (VFloat f)) \/
  eval e = Raise ValueError \/ eval e = Raise ZeroDivisionError.
Proof.
  induction e as [v | e1 IH1 op e2 IH2 | name | name arg IH];
    cbn [arithmetic eval].
  - intros _. unfold py_float.
    destruct (scan_decimal v 0 0 None) as [[m k]|]; simpl; eauto.
  - intros (Hop & H1 & H2).
    destruct (IH1 H1) as [[a Ea] | [Ea | Ea]]; rewrite Ea; cbn [bind]; auto.
    assert (Hm : exists m, dict_get op_map op = Ok m).
    { destruct Hop as [<- | [<- | [<- | [<- | []]]]]; simpl; eauto. }
    destruct Hm as [m Em]. rewrite Em. cbn [bind getattr].
    destruct (IH2 H2) as [[b Eb] | [Eb | Eb]]; rewrite Eb; cbn [bind]; auto.
    destruct m; simpl; eauto.
    destruct (PrimFloat.eqb b PrimFloat.zero); eauto.
  - contradiction.
  - contradiction.
Qed.

(* ================================================================== *)
(** * Texts without letters *)

Lemma string_forall_keep_matched (p : ascii -> bool) (s : string) :
  string_forall p s = true -> string_forall p (keep_matched s) = true.
Proof.
  induction s as [|v s IH]; simpl; [reflexivity|].
  intro H. apply andb_true_iff in H. destruct H as [Hv Hs].
  destruct (unmatched v); simpl; [now apply IH|].
  now rewrite Hv, IH.
Qed.

Lemma string_forall_texts (p : ascii -> bool) (l : list Token) (t : Token) :
  string_forall p (texts l) = true -> In t l ->
  string_forall p (token_str t) = true.
Proof.
  induction l as [|x l IH]; simpl; [contradiction|].
  rewrite string_forall_app. intros H [-> | Hin];
    apply andb_true_iff in H; destruct H as [Hx Hl]; auto.
Qed.

Lemma no_name_token (s : string) (t : Token) :
  string_forall no_letter s = true -> In t (lex s) ->
  token_type t <> CONSTANT_OR_FUNCTION_NAME.
Proof.
  intros Hs Hin Hty.
  pose proof (lex_shaped s) as Hshape. rewrite Forall_forall in Hshape.
  specialize (Hshape t Hin). unfold token_shape in Hshape.
  rewrite Hty in Hshape. destruct Hshape as [Hne Hall].
  apply string_forall_keep_matched in Hs. rewrite <- texts_lex in Hs.
  pose proof (string_forall_texts _ _ _ Hs Hin) as Hno.
  destruct (token_str t) as [|c text]; [congruence|].
  simpl in Hall, Hno. unfold no_letter in Hno.
  destruct (isalpha c); discriminate.
Qed.

(** The tree of a text without letters is arithmetic. *)
Lemma from_tokens_arithmetic (s : string) (e : expr) :
  string_forall no_letter s = true ->
  from_tokens (lex s) e -> arithmetic e.
Proof.
  intro Hs.
  pose proof (lex_shaped s) as Hshape. rewrite Forall_forall in Hshape.
  induction e as [v | e1 IH1 op e2 IH2 | name | name arg IH];
    cbn [from_tokens arithmetic].
  - intros [-> | (t & Hin & Hty & <-)]; [reflexivity|].
    specialize (Hshape t Hin). unfold token_shape in Hshape.
    destruct (token_type t); try discriminate Hty;
      [contradiction | exact (proj2 Hshape)].
  - intros ((t & Hin & Hty & <-) & H1 & H2).
    repeat split; auto.
    specialize (Hshape t Hin). unfold token_shape in Hshape.
    destruct (token_type t); try discriminate Hty; simpl in Hshape;
      destruct Hshape as [<- | [<- | []]]; simpl; auto.
  - intros (t & Hin & Hty & _).
    apply (no_name_token s t Hs Hin).
    destruct (token_type t); try discriminate Hty; reflexivity.
  - intros ((t & Hin & Hty & _) & _).
    apply (no_name_token s t Hs Hin).
    destruct (token_type t); try discriminate Hty; reflexivity.
Qed.

Lemma lex_left_brackets (s : string) (t : Token) :
  In t (lex s) -> is_left_bracket t = true -> token_type t = BRACKET.
Proof.
  intros Hin Hlb.
  pose proof (lex_shaped s) as Hshape. rewrite Forall_forall in Hshape.
  destruct (shape_bracket t (Hshape t Hin)) as [H _].
  rewrite Hlb in H. simpl in H. symmetry in H. now apply eqb_type_true.
Qed.

(* ================================================================== *)
(** * Counting tokens *)

Lemma string_length_app (a b : string) :
  String.length (a ++ b) = String.length a + String.length b.
Proof. induction a as [|c a IH]; simpl; [reflexivity | now rewrite IH]. Qed.

Lemma texts_length (l : list Token) :
  Forall token_ok l -> List.length l <= String.length (texts l).
Proof.
  induction 1 as [|t l [Hne _] _ IH]; simpl; [reflexivity|].
  rewrite string_length_app.
  destruct (token_str t); [congruence | simpl; lia].
Qed.

Lemma keep_matched_length (s : string) :
  String.length (keep_matched s) <= String.length s.
Proof.
  induction s as [|v s IH]; simpl; [reflexivity|].
  destruct (unmatched v); simpl; lia.
Qed.

Lemma lex_tokens_ok (s : string) : Forall token_ok (lex s).
Proof. exact (proj1 (proj1 (push_ok (lex_loop_ok s lexer_init_ok)))). Qed.

Lemma no_brackets_from (token_list : list Token) (pos : nat) :
  (forall t, In t token_list -> token_type t <> BRACKET) ->
  brackets_from token_list pos = 0.
Proof.
  intro H. unfold brackets_from.
  assert (Hs : forall t, In t (skipn pos token_list) ->
                         token_type t <> BRACKET).
  { intros t Hin. apply H.
    rewrite <- (firstn_skipn pos token_list). apply in_or_app. now right. }
  induction (skipn pos token_list) as [|x l IH]; [reflexivity|].
  simpl. rewrite eqb_type_false by (apply Hs; now left).
  apply IH. intros t Hin. apply Hs. now right.
Qed.


(* ================================================================== *)
(** * A sign where an operand must start *)









(* ================================================================== *)
(** * Properties of the pipeline *)

(** C1, on the code: [parse_bracket] checks the type of the token at [pos]
    a second time where the closing bracket was to be checked, so it
    accepts ["(2"], whose bracket is never closed, and reports three tokens
    used out of a list of two: there is no token at position
    [pos + 1 + 1]. *)
Theorem unclosed_bracket_accepted :
  lex "(2" = [mkToken "(" BRACKET; mkToken "2" NUMBER] /\
  parse_expr (lex "(2") 3 1 = Ok (NumberExpression "2", 1) /\
  parse_bracket (lex "(2") 4 0 = Ok (NumberExpression "2", 3) /\
  parse (lex "(2") 0 = Ok (NumberExpression "2", 3) /\
  nth_error (lex "(2") (0 + 1 + 1) = None.
Proof.
  repeat split.
Qed.

(** C2, as the code has it: a character that matches no rule of the lexer
    leaves the lexer as it was.  No token is emitted for it and the open
    token is not flushed, so the text lexes as if the character were not
    there: ["1 2"] lexes like ["12"], to the single number token ["12"]. *)
Theorem unmatched_character_is_skipped (v : ascii) :
  unmatched v = true ->
  (forall st, lex_step st v = st) /\
  (forall pre post, lex (pre ++ String v post) = lex (pre ++ post)) /\
  lex "1 2" = lex "12" /\
  lex "1 2" = [mkToken "12" NUMBER].
Proof.
  intro H. repeat split.
  - intro st. now apply lex_step_unmatched.
  - intros pre post. unfold lex.
    rewrite !lex_loop_app. simpl.
    now rewrite lex_step_unmatched.
Qed.

Lemma unmatched_character_is_skipped_witness :
  unmatched " " = true /\
  lex ("1" ++ String " " "2") = lex ("1" ++ "2").
Proof.
  split; [reflexivity|].
  apply (proj1 (proj2 (unmatched_character_is_skipped " " eq_refl))).
Defined.

(** C2 as stated fails: the blank of ["1 2"] does not close the number
    that is open, and the lexer yields one token, ["12"], not two. *)
Lemma blank_does_not_flush :
  lex "1 2" = [mkToken "12" NUMBER] /\
  lex "1 2" <> [mkToken "1" NUMBER; mkToken "2" NUMBER].
Proof.
  split; [reflexivity | discriminate].
Qed.

(** C3, as the code has it: [float.__truediv__] raises [ZeroDivisionError]
    when the divisor is a zero of either sign, so a division whose right
    operand evaluates to zero fails, whatever float the left operand is;
    ["1/0"] fails in this way. *)
Theorem division_by_zero_raises
  (object : Type) (runtime : PyRuntime object) (l r : expr) (a b : float) :
  eval l = Ok (VFloat a) ->
  eval r = Ok (VFloat b) ->
  PrimFloat.eqb b PrimFloat.zero = true ->
  eval (BinaryExpression l "/" r) = Raise ZeroDivisionError /\
  calculate "1/0" = Raise ZeroDivisionError.
Proof.
  intros Hl Hr Hb. split; [|reflexivity].
  simpl. rewrite Hl. simpl. rewrite Hr. simpl. now rewrite Hb.
Qed.

Lemma division_by_zero_raises_witness :
  eval (runtime := core_runtime)
       (BinaryExpression (NumberExpression "0") "/"
          (BinaryExpression (NumberExpression "0") "-" (NumberExpression "0")))
  = Raise ZeroDivisionError.
Proof.
  apply (division_by_zero_raises core_runtime
           (NumberExpression "0")
           (BinaryExpression (NumberExpression "0") "-" (NumberExpression "0"))
           (a := PrimFloat.zero) (b := PrimFloat.zero));
    reflexivity.
Defined.

(** C3 as stated fails: ["1/0"] does not evaluate to an infinity, it
    raises. *)
Lemma one_over_zero_is_an_error :
  calculate (runtime := core_runtime) "1/0" = Raise ZeroDivisionError /\
  calculate (runtime := core_runtime) "1/0" <> Ok (VFloat infinity).
Proof.
  split; [reflexivity | discriminate].
Qed.

(** C4: the pipeline respects the two precedence tiers and the binding of
    the unary sign: on every runtime, ["2+3*4"] evaluates to [14.0],
    ["(2+3)*4"] to [20.0] and ["6*-2"] to [-12.0]. *)
Theorem precedence_examples :
  forall (object : Type) (runtime : PyRuntime object),
    calculate "2+3*4" = Ok (VFloat 14%float) /\
    calculate "(2+3)*4" = Ok (VFloat 20%float) /\
    calculate "6*-2" = Ok (VFloat (-12)%float).
Proof.
  intros object runtime.
  repeat split; vm_compute; reflexivity.
Qed.

(** C5: in every input, the token emitted for a ['+'] or ['-'] comes right
    after the tokens of the text before it, and its kind is [SIGN] exactly
    when no token was emitted before it or the last one emitted is a
    [SECOND_PRIORITY_OP] or a [THIRD_PRIORITY_OP]; otherwise its kind is
    [THIRD_PRIORITY_OP]. *)
Theorem sign_or_binary (pre post : string) (v : ascii) :
  char_in v third_priority_tokens = true ->
  let kind := if sign_position (lex pre) then SIGN else THIRD_PRIORITY_OP in
  (exists rest,
      lex (pre ++ String v post) = lex pre ++ mkToken (str1 v) kind :: rest) /\
  (kind = SIGN <->
   lex pre = [] \/
   exists before last,
     lex pre = before ++ [last] /\
     (token_type last = SECOND_PRIORITY_OP \/
      token_type last = THIRD_PRIORITY_OP)) /\
  (kind <> SIGN -> kind = THIRD_PRIORITY_OP).
Proof.
  intros Hv kind. repeat split.
  - now apply lex_third_char.
  - intro Hk. apply sign_position_spec.
    subst kind. destruct (sign_position (lex pre)); [reflexivity|discriminate].
  - intro H. apply sign_position_spec in H. subst kind. now rewrite H.
  - subst kind. destruct (sign_position (lex pre)); [now intros []|reflexivity].
Qed.

Lemma sign_or_binary_witness :
  exists rest,
    lex ("3*" ++ String "-" "2") =
    lex "3*" ++ mkToken "-" SIGN :: rest.
Proof.
  exact (proj1 (sign_or_binary "3*" "2" "-" eq_refl)).
Defined.




(** C7: [parse_expr] fails, with no tree at all, when the start position
    holds no token (Python's [IndexError]), which is the case at every
    position of the empty list that an empty or all-ignored input lexes to,
    and when the token at the start position is a binary operator (the
    [ValueError] of [parse_first_priority]); ["*3"] fails in this way. *)
Theorem parse_fails_without_operand (token_list : list Token) (pos : nat) :
  (List.length token_list <= pos ->
   parse token_list pos = Raise IndexError) /\
  (forall t,
      nth_error token_list pos = Some t ->
      token_type t = SECOND_PRIORITY_OP \/
      token_type t = THIRD_PRIORITY_OP ->
      parse token_list pos = Raise ValueError) /\
  lex "" = [] /\ lex "  " = [] /\
  parse (lex "") 0 = Raise IndexError /\
  parse (lex "*3") 0 = Raise ValueError.
Proof.
  repeat split.
  - intro H. apply parse_any_fuel with (fuel := 2); [|discriminate].
    now apply parse_expr_out_of_range.
  - intros t Ht Hty. apply parse_any_fuel with (fuel := 2); [|discriminate].
    now apply parse_expr_binary_first with (t := t).
Qed.

Lemma parse_fails_without_operand_witness :
  parse (lex "2+") 2 = Raise IndexError /\
  parse (lex "2+") 1 = Raise ValueError.
Proof.
  split.
  - apply (proj1 (parse_fails_without_operand (lex "2+") 2)).
    vm_compute. lia.
  - apply (proj1 (proj2 (parse_fails_without_operand (lex "2+") 1))
             (mkToken "+" THIRD_PRIORITY_OP)).
    + reflexivity.
    + right. reflexivity.
Defined.

(** C8, as the code has it: an answer [(e, n)] of a parse function at
    [start] depends on no token at an index beyond [start + n]; the token
    at [start + n] itself is looked at, to see whether an operator or an
    opening bracket goes on.  So the answer is the same on every list that
    has the same tokens, or none, at each index up to [start + n].  And on a
    token list that spells a well-formed expression, [parse_expr] at [0]
    reports all the tokens of the list, no fewer, no more. *)
Theorem parser_reads_what_it_reports :
  (forall l1 l2 fuel, same_answers l1 l2 fuel) /\
  (forall l1 l2 start e n,
      parse_number l1 start = Ok (e, n) ->
      (forall i, i <= start + n -> nth_error l1 i = nth_error l2 i) ->
      parse_number l2 start = Ok (e, n)) /\
  (forall l1 l2 start e n,
      parse l1 start = Ok (e, n) ->
      (forall i, i <= start + n -> nth_error l1 i = nth_error l2 i) ->
      parse l2 start = Ok (e, n)) /\
  (forall ts,
      expression ts -> exists e, parse ts 0 = Ok (e, List.length ts)).
Proof.
  repeat split.
  1-9: now apply frame.
  - intros l1 l2 start e n H Hag. unfold parse_number in *.
    rewrite (token_at_agree (l1 := l1) (l2 := l2) (k := start + n)); auto.
    lia.
  - intros l1 l2 start e n H Hag. now apply parse_frame with (l1 := l1).
  - intros ts Hts.
    destruct (@expression_is_read ts Hts ts [] [] 0) as (fuel & e & E).
    + now rewrite app_nil_r.
    + reflexivity.
    + exact I.
    + exists e. apply parse_any_fuel with (fuel := fuel); [exact E|].
      discriminate.
Qed.

Lemma parser_reads_what_it_reports_witness :
  parse (lex "2)*7") 0 = Ok (NumberExpression "2", 1) /\
  exists e, parse (lex "(2+3)*4") 0 = Ok (e, 7).
Proof.
  destruct parser_reads_what_it_reports as (_ & _ & Hframe & Hwhole).
  split.
  - apply (Hframe (lex "2)") (lex "2)*7") 0).
    + reflexivity.
    + intros [|[|i]] Hi; [reflexivity | reflexivity | simpl in Hi; lia].
  - apply (Hwhole (lex "(2+3)*4")).
    apply (expression_binary
             (ts := [lparen; mkToken "2" NUMBER;
                     mkToken "+" THIRD_PRIORITY_OP; mkToken "3" NUMBER;
                     rparen])
             (op := mkToken "*" SECOND_PRIORITY_OP)
             (rest := [mkToken "4" NUMBER])).
    + apply (operand_group
               (inner := [mkToken "2" NUMBER; mkToken "+" THIRD_PRIORITY_OP;
                          mkToken "3" NUMBER])).
      apply (expression_binary
               (ts := [mkToken "2" NUMBER])
               (op := mkToken "+" THIRD_PRIORITY_OP)
               (rest := [mkToken "3" NUMBER])).
      * now apply operand_number.
      * right. split; [reflexivity | simpl; auto].
      * now apply expression_operand, operand_number.
    + left. split; [reflexivity | simpl; auto].
    + now apply expression_operand, operand_number.
Defined.

(** C8 as stated fails twice.  The parser looks at the token at
    [start + n]: ["2)"] and ["2*"] lex to lists of the same length with the
    same token below index [0 + 1], and [parse_expr] answers [(2, 1)] on
    the first and raises on the second.  And [start + n] can exceed the
    length of the list: on ["(2"], two tokens, the answer reports three. *)
Lemma parser_looks_at_next_token :
  parse (lex "2)") 0 = Ok (NumberExpression "2", 1) /\
  (forall i, i < 0 + 1 -> nth_error (lex "2)") i = nth_error (lex "2*") i) /\
  List.length (lex "2)") = List.length (lex "2*") /\
  parse (lex "2*") 0 = Raise IndexError /\
  parse (lex "(2") 0 = Ok (NumberExpression "2", 3) /\
  List.length (lex "(2") = 2.
Proof.
  repeat split.
  intros [|i] Hi; [reflexivity | lia].
Qed.



(** C10: every token the lexer emits has a text that is not empty and one
    of the six kinds other than [DOT]; a lone ['.'] is emitted as the
    [NUMBER] token ["."], which parses to a number whose evaluation fails in
    [float] with [ValueError]; and [parse_first_priority] takes a [DOT]
    token, should it be given one, as a number all the same. *)
Theorem lexed_tokens_well_formed :
  (forall s t,
      In t (lex s) ->
      token_str t <> "" /\
      In (token_type t)
         [NUMBER; SIGN; BRACKET; SECOND_PRIORITY_OP; THIRD_PRIORITY_OP;
          CONSTANT_OR_FUNCTION_NAME]) /\
  lex "." = [mkToken "." NUMBER] /\
  parse (lex ".") 0 = Ok (NumberExpression ".", 1) /\
  (forall (object : Type) (runtime : PyRuntime object),
      eval (NumberExpression ".") = Raise ValueError /\
      calculate "." = Raise ValueError) /\
  (forall token_list fuel pos t,
      nth_error token_list pos = Some t ->
      token_type t = DOT ->
      parse_first_priority token_list (S fuel) pos =
      Ok (NumberExpression (token_str t), 1)).
Proof.
  split; [|repeat split].
  - intros s t Hin.
    destruct (push_ok (lex_loop_ok s lexer_init_ok)) as [[Hall _] _].
    fold (lex s) in Hall.
    rewrite Forall_forall in Hall.
    destruct (Hall t Hin) as [Hs Hty]. split; [exact Hs|].
    destruct (token_type t); simpl; auto 7. now elim Hty.
  - intros token_list fuel pos t Ht Hty. simpl.
    rewrite (proj2 (token_at_Ok token_list pos t) Ht). simpl.
    rewrite Hty. simpl. unfold parse_number.
    now rewrite (proj2 (token_at_Ok token_list pos t) Ht).
Qed.

Lemma lexed_tokens_well_formed_witness :
  token_str (mkToken "12" NUMBER) <> "" /\
  In (token_type (mkToken "12" NUMBER))
     [NUMBER; SIGN; BRACKET; SECOND_PRIORITY_OP; THIRD_PRIORITY_OP;
      CONSTANT_OR_FUNCTION_NAME].
Proof.
  apply (proj1 lexed_tokens_well_formed "1 2+.").
  vm_compute. auto.
Defined.


(* ================================================================== *)
(** * Further properties of the lexer *)

(** X1: put one after the other, the texts of the tokens that [lex]
    returns are the input without the characters that match no rule: the
    lexer drops no matched character, adds none and keeps their order. *)
Theorem lex_keeps_matched_characters (s : string) :
  texts (lex s) = keep_matched s.
Proof.
  assert (H0 : lexer_closed lexer_init) by (intro; reflexivity).
  destruct (lex_loop_text s H0) as [Hclosed Htext].
  pose proof (push_text Hclosed) as Hpush.
  unfold lexer_text in Hpush at 1. simpl in Hpush.
  rewrite string_app_nil_r in Hpush.
  unfold lex. simpl. rewrite Hpush, Htext. reflexivity.
Qed.

(** X2: the tokens of an input are those of the input without its
    unmatched characters, and lexing the texts of the tokens, put one after
    the other, gives the same tokens again. *)
Theorem lex_round_trip (s : string) :
  lex (keep_matched s) = lex s /\ lex (texts (lex s)) = lex s.
Proof.
  assert (H : lex (keep_matched s) = lex s).
  { unfold lex. now rewrite lex_loop_keep_matched. }
  split; [exact H|]. now rewrite texts_lex.
Qed.

(** X3: the text of every token [lex] returns fits its type: a number is
    a run of numeric characters and points, a name a run of letters, a
    sign or a third-priority operator is ["+"] or ["-"], a second-priority
    operator ["*"] or ["/"], a bracket ["("] or [")"]. *)
Theorem lexed_token_shape (s : string) (t : Token) :
  In t (lex s) -> token_shape t.
Proof.
  intro H. pose proof (lex_shaped s) as Hs. rewrite Forall_forall in Hs.
  now apply Hs.
Qed.

Lemma lexed_token_shape_witness :
  token_shape (mkToken "3.5" NUMBER).
Proof.
  apply (@lexed_token_shape "x*3.5" (mkToken "3.5" NUMBER)).
  vm_compute. right. right. left. reflexivity.
Defined.

(** X4: among the tokens [lex] returns, the bracket tokens are the tokens
    that [is_left_bracket] or [is_right_bracket] accepts, although the two
    properties look at the text only. *)
Theorem lexed_brackets (s : string) (t : Token) :
  In t (lex s) ->
  (token_type t = BRACKET <->
   is_left_bracket t = true \/ is_right_bracket t = true).
Proof.
  intro Hin. pose proof (lex_shaped s) as Hs. rewrite Forall_forall in Hs.
  destruct (shape_bracket t (Hs t Hin)) as [H _].
  split.
  - intro Hty. rewrite Hty in H. simpl in H. now apply orb_true_iff.
  - intro Hb. apply orb_true_iff in Hb. rewrite Hb in H.
    symmetry in H. now apply eqb_type_true.
Qed.

Lemma lexed_brackets_witness :
  token_type lparen = BRACKET <->
  is_left_bracket lparen = true \/ is_right_bracket lparen = true.
Proof.
  apply (@lexed_brackets "sin(x)" lparen).
  vm_compute. right. left. reflexivity.
Defined.

(** X5: numbers and names are taken whole: [lex] never returns two number
    tokens in a row, nor two name tokens in a row. *)
Theorem numbers_and_names_taken_whole (s : string) (i : nat)
        (t1 t2 : Token) :
  nth_error (lex s) i = Some t1 -> nth_error (lex s) (S i) = Some t2 ->
  token_type t1 = token_type t2 ->
  token_type t1 <> NUMBER /\ token_type t1 <> CONSTANT_OR_FUNCTION_NAME.
Proof.
  intros H1 H2 Hty.
  pose proof (lex_separated s) as Hsep.
  pose proof (Hsep i t1 t2 H1 H2 Hty) as H.
  destruct (token_type t1); split; discriminate.
Qed.

Lemma numbers_and_names_taken_whole_witness :
  token_type lparen <> NUMBER /\
  token_type lparen <> CONSTANT_OR_FUNCTION_NAME.
Proof.
  apply (@numbers_and_names_taken_whole "1 2((3 4" 1 lparen lparen);
    reflexivity.
Defined.

(** X6: a ['*'] or ['/'] cuts the input in two: the tokens are those of
    the text before it, the operator, and those of the text after it, lexed
    as from the start; so a ['+'] or ['-'] right after it is a sign. *)
Theorem lex_restarts_after_second_priority (pre post : string) (v : ascii) :
  char_in v second_priority_tokens = true ->
  lex (pre ++ String v post) =
  lex pre ++ mkToken (str1 v) SECOND_PRIORITY_OP :: lex post.
Proof.
  intro Hv. rewrite lex_after_char.
  assert (Hstep : lex_step (lex_loop lexer_init pre) v =
                  push (open_token (push (lex_loop lexer_init pre)) v
                                   SECOND_PRIORITY_OP)).
  { destruct v as [[] [] [] [] [] [] [] []];
      try (exfalso; vm_compute in Hv; discriminate Hv); reflexivity. }
  rewrite Hstep.
  set (old := lex pre ++ [mkToken (str1 v) SECOND_PRIORITY_OP]).
  assert (H0 : same_future old [] []
                 (push (open_token (push (lex_loop lexer_init pre)) v
                                   SECOND_PRIORITY_OP))
                 lexer_init).
  { repeat split.
    - unfold push at 1. simpl. now rewrite app_nil_r.
    - intros _ _. unfold old, sign_position. now rewrite rev_unit. }
  destruct (lex_loop_same_future post H0) as (r1 & H1).
  destruct (push_same_future H1) as (r2 & (Hr & Hr' & _) & _).
  fold (lex post) in Hr'. rewrite Hr, Hr'. unfold old.
  now rewrite <- app_assoc.
Qed.

Lemma lex_restarts_after_second_priority_witness :
  lex "6*-4" =
  lex "6" ++ mkToken "*" SECOND_PRIORITY_OP :: lex "-4".
Proof.
  apply (@lex_restarts_after_second_priority "6" "-4" "*"%char).
  reflexivity.
Defined.

(** X7: [lex] returns no token exactly when no character of the input
    matches a rule, and it never returns more tokens than the input has
    matched characters. *)
Theorem lex_token_count (s : string) :
  (lex s = [] <-> string_forall unmatched s = true) /\
  List.length (lex s) <= String.length (keep_matched s) /\
  String.length (keep_matched s) <= String.length s.
Proof.
  pose proof (texts_length (lex_tokens_ok s)) as Hlen.
  rewrite texts_lex in Hlen.
  repeat split.
  - intro H. apply keep_matched_nil. rewrite <- texts_lex, H. reflexivity.
  - intro H. apply keep_matched_nil in H. rewrite H in Hlen.
    destruct (lex s); [reflexivity | simpl in Hlen; lia].
  - exact Hlen.
  - apply keep_matched_length.
Qed.

(* ================================================================== *)
(** * Further properties of the parser *)

(** X8: [parse_expr] terminates on every token list and position: a
    budget of [3 * (len - pos) + 5] nested calls and loop turns is never
    exhausted, and every budget that large gives the one answer. *)
Theorem parse_expr_terminates (token_list : list Token) (pos fuel : nat) :
  3 * (List.length token_list - pos) + 5 <= fuel ->
  parse_expr token_list fuel pos <> OutOfFuel /\
  parse_expr token_list fuel pos = parse token_list pos.
Proof.
  intro H.
  assert (Hr : parse_expr token_list fuel pos <> OutOfFuel).
  { now apply (enough_fuel token_list fuel). }
  split; [exact Hr|].
  symmetry. now apply parse_any_fuel with (fuel := fuel).
Qed.

Lemma parse_expr_terminates_witness :
  parse_expr (lex "2*(3+4)") 26 0 <> OutOfFuel /\
  parse_expr (lex "2*(3+4)") 26 0 = parse (lex "2*(3+4)") 0.
Proof.
  apply (@parse_expr_terminates (lex "2*(3+4)") 0 26).
  vm_compute. lia.
Defined.

(** X9: the number of tokens [parse_expr] reports is at least one, and it
    goes beyond the end of the list by no more than one for each bracket
    token from the start position on (a bracket that is never closed is
    counted as closed); on a list without brackets it stays within the
    list. *)
Theorem reported_length_bounds (token_list : list Token) (pos : nat)
        (e : expr) (n : nat) :
  parse token_list pos = Ok (e, n) ->
  1 <= n /\
  pos + n <= List.length token_list + brackets_from token_list pos /\
  ((forall t, In t token_list -> token_type t <> BRACKET) ->
   pos + n <= List.length token_list).
Proof.
  intro H. unfold parse in H.
  pose proof (answer_length token_list (parse_fuel token_list)) as Hlen.
  pose proof (answer_bound token_list (parse_fuel token_list)) as Hb.
  destruct Hlen as (_ & _ & _ & _ & _ & _ & _ & Hlen & _).
  destruct Hb as (_ & _ & _ & _ & _ & _ & _ & Hb & _).
  specialize (Hlen pos e n H). specialize (Hb pos e n H).
  unfold token_bound in Hb.
  repeat split; try assumption.
  intro Hno. rewrite (no_brackets_from token_list pos Hno) in Hb. lia.
Qed.

Lemma reported_length_bounds_witness :
  1 <= 3 /\
  0 + 3 <= List.length (lex "(2") + brackets_from (lex "(2") 0 /\
  ((forall t, In t (lex "(2") -> token_type t <> BRACKET) ->
   0 + 3 <= List.length (lex "(2")).
Proof.
  apply (@reported_length_bounds (lex "(2") 0 (NumberExpression "2") 3).
  reflexivity.
Defined.

(** X10: short of the interpreter's limit on the depth of recursion,
    which the model leaves out, [parse_expr] raises nothing but
    [IndexError] and [ValueError] on a token list in which only bracket
    tokens have the text ["("], as on every list [lex] returns: the two
    [assert]s of [parse_bracket] never fail.  This holds at every budget of
    nested calls, so wherever the recursion is cut no other exception of the
    parser's own shows.  The [assert]s can fail on other lists: after a
    name, a number token with the text ["("] is taken for a bracket and
    fails the first one. *)
Theorem parse_errors :
  (forall token_list,
      (forall t, In t token_list -> is_left_bracket t = true ->
                 token_type t = BRACKET) ->
      forall pos e,
        (parse token_list pos = Raise e \/
         exists fuel, parse_expr token_list fuel pos = Raise e) ->
        e = IndexError \/ e = ValueError) /\
  (forall s pos e,
      (parse (lex s) pos = Raise e \/
       exists fuel, parse_expr (lex s) fuel pos = Raise e) ->
      e = IndexError \/ e = ValueError) /\
  parse [mkToken "f" CONSTANT_OR_FUNCTION_NAME; mkToken "(" NUMBER] 0
  = Raise AssertionError.
Proof.
  assert (Hany : forall token_list,
             (forall t, In t token_list -> is_left_bracket t = true ->
                        token_type t = BRACKET) ->
             forall pos e,
               (parse token_list pos = Raise e \/
                exists fuel, parse_expr token_list fuel pos = Raise e) ->
               e = IndexError \/ e = ValueError).
  { intros token_list Hl pos e [H | [fuel H]].
    - unfold parse in H.
      destruct (@raises token_list Hl (parse_fuel token_list))
        as (_ & _ & _ & _ & _ & _ & _ & H8 & _).
      exact (H8 pos e H).
    - destruct (@raises token_list Hl fuel)
        as (_ & _ & _ & _ & _ & _ & _ & H8 & _).
      exact (H8 pos e H). }
  split; [exact Hany | split; [|reflexivity]].
  intros s pos e H.
  exact (Hany (lex s) (lex_left_brackets s) pos e H).
Qed.

Lemma parse_errors_witness :
  (ValueError = IndexError \/ ValueError = ValueError) /\
  (IndexError = IndexError \/ IndexError = ValueError) /\
  (ValueError = IndexError \/ ValueError = ValueError).
Proof.
  split; [|split].
  - apply (proj1 parse_errors
             [mkToken "2" NUMBER; mkToken "*" SECOND_PRIORITY_OP;
              mkToken "/" SECOND_PRIORITY_OP] ) with (pos := 0).
    + intros t [<- | [<- | [<- | []]]] H; vm_compute in H; discriminate H.
    + left. reflexivity.
  - apply (proj1 (proj2 parse_errors) "(2+" 0). left. reflexivity.
  - apply (proj1 (proj2 parse_errors) "((*" 0). right. exists 8. reflexivity.
Defined.

(** X11: every part of the tree [parse_expr] returns comes from a token
    of the list: a number is the text of a number token, or the ["0"] a
    sign is given for left operand; an operator is the text of a sign or
    operator token; a name is the text of a name token. *)
Theorem tree_comes_from_tokens (token_list : list Token) (pos : nat)
        (e : expr) (n : nat) :
  parse token_list pos = Ok (e, n) -> from_tokens token_list e.
Proof.
  intro H. unfold parse in H.
  destruct (provenance token_list (parse_fuel token_list))
    as (_ & _ & _ & _ & _ & _ & _ & H8 & _).
  exact (H8 pos e n H).
Qed.

Lemma tree_comes_from_tokens_witness :
  from_tokens (lex "-sin(2)")
    (BinaryExpression (NumberExpression "0") "-"
       (FunctionExpression "sin" (NumberExpression "2"))).
Proof.
  apply (@tree_comes_from_tokens (lex "-sin(2)") 0 _ 5).
  reflexivity.
Defined.

(** X12: on a token list that spells an expression of the usual grammar,
    [parse_expr] returns the tree of that grammar, in which [*] and [/]
    bind tighter than [+] and [-], operators of one tier associate to the
    left and a sign applies to the operand after it, and it reports all the
    tokens of the expression; this holds wherever the expression stands in
    the list, when the list ends after it or goes on with a closing
    bracket. *)
Theorem parse_gives_the_tree (ts : list Token) (e : expr) :
  expression_tree ts e ->
  forall pre post,
    ends post ->
    parse (pre ++ ts ++ post) (List.length pre) = Ok (e, List.length ts).
Proof.
  intros H pre post Hpost.
  destruct (@expression_tree_parsed ts e H (pre ++ ts ++ post) pre post
              (List.length pre) eq_refl eq_refl Hpost) as [fuel E].
  apply parse_any_fuel with (fuel := fuel); [exact E | discriminate].
Qed.

Lemma parse_gives_the_tree_witness :
  parse (lex "2-3*4-5") 0 =
  Ok (BinaryExpression
        (BinaryExpression (NumberExpression "2") "-"
           (BinaryExpression (NumberExpression "3") "*"
              (NumberExpression "4")))
        "-" (NumberExpression "5"), 7).
Proof.
  apply (@parse_gives_the_tree (lex "2-3*4-5") _) with (pre := []) (post := []);
    [|exact I].
  apply (tree_sum
           (ts := [mkToken "2" NUMBER; mkToken "-" THIRD_PRIORITY_OP;
                   mkToken "3" NUMBER; mkToken "*" SECOND_PRIORITY_OP;
                   mkToken "4" NUMBER])
           (op := mkToken "-" THIRD_PRIORITY_OP)
           (ts' := [mkToken "5" NUMBER])).
  - apply (tree_sum (ts := [mkToken "2" NUMBER])
                    (op := mkToken "-" THIRD_PRIORITY_OP)
                    (ts' := [mkToken "3" NUMBER;
                             mkToken "*" SECOND_PRIORITY_OP;
                             mkToken "4" NUMBER])).
    + apply tree_term, tree_operand.
      apply (tree_number (mkToken "2" NUMBER)). reflexivity.
    + split; [reflexivity | simpl; auto].
    + apply (tree_product (ts := [mkToken "3" NUMBER])
                          (op := mkToken "*" SECOND_PRIORITY_OP)
                          (ts' := [mkToken "4" NUMBER])).
      * apply tree_operand.
        apply (tree_number (mkToken "3" NUMBER)). reflexivity.
      * split; [reflexivity | simpl; auto].
      * apply (tree_number (mkToken "4" NUMBER)). reflexivity.
  - split; [reflexivity | simpl; auto].
  - apply tree_operand.
    apply (tree_number (mkToken "5" NUMBER)). reflexivity.
Defined.

(** X13: [parse_bracket] never asks for the closing bracket: an opening
    bracket followed by the tokens of an expression and nothing else is
    parsed as that expression, and the length reported is one more than
    the list has tokens. *)
Theorem closing_bracket_not_required (inner : list Token) (e : expr) :
  expression_tree inner e ->
  parse (lparen :: inner) 0 = Ok (e, List.length inner + 2).
Proof.
  intro H.
  destruct (@expression_tree_parsed inner e H (lparen :: inner) [lparen] []
              1) as [fuel E].
  - now rewrite app_nil_r.
  - reflexivity.
  - exact I.
  - apply parse_any_fuel with (fuel := S (S (S fuel))); [|discriminate].
    cbn [parse_expr parse_first_priority parse_bracket].
    unfold token_at at 1 2. cbn [nth_error]. run.
    replace (0 + 1) with 1 by reflexivity. rewrite E. run.
    cbn [parse_expr_loop].
    replace (Nat.ltb (0 + (List.length inner + 2))
                     (List.length (lparen :: inner))) with false.
    + reflexivity.
    + symmetry. apply Nat.ltb_ge. simpl. lia.
Qed.

Lemma closing_bracket_not_required_witness :
  parse (lex "(2+3") 0 =
  Ok (BinaryExpression (NumberExpression "2") "+" (NumberExpression "3"), 5).
Proof.
  apply (@closing_bracket_not_required (lex "2+3") _).
  apply (tree_sum (ts := [mkToken "2" NUMBER])
                  (op := mkToken "+" THIRD_PRIORITY_OP)
                  (ts' := [mkToken "3" NUMBER])).
  - apply tree_term, tree_operand.
    apply (tree_number (mkToken "2" NUMBER)). reflexivity.
  - split; [reflexivity | simpl; auto].
  - apply tree_operand.
    apply (tree_number (mkToken "3" NUMBER)). reflexivity.
Defined.

(** X14: the parser never looks back: what [parse_expr] gives at a
    position (the tree and the count, or the exception) does not depend on
    the tokens before that position; it is what [parse_expr] gives at the
    start of the list cut at that position. *)
Theorem parser_never_looks_back :
  (forall pre token_list pos,
      parse (pre ++ token_list) (List.length pre + pos)
      = parse token_list pos) /\
  (forall token_list pos,
      parse token_list pos = parse (skipn pos token_list) 0).
Proof.
  split; [exact parse_shift|].
  intros token_list pos.
  destruct (Nat.le_gt_cases pos (List.length token_list)) as [H | H].
  - rewrite <- (firstn_skipn pos token_list) at 1.
    replace pos with (List.length (firstn pos token_list) + 0) at 3
      by (rewrite length_firstn; lia).
    apply parse_shift.
  - rewrite skipn_all2 by lia.
    transitivity (@Raise (expr * nat) IndexError).
    + apply parse_any_fuel with (fuel := 2); [|discriminate].
      apply parse_expr_out_of_range. lia.
    + reflexivity.
Qed.

(* ================================================================== *)
(** * Further properties of the evaluator *)

(** X15: short of the interpreter's limit on the depth of recursion,
    which the model leaves out, a tree of the operators [+], [-], [*] and
    [/] and of numbers whose texts are made of numeric characters and
    points (the texts [lex] gives to number tokens, and the ["0"] of
    [parse_sign]) evaluates without the [math] module, on every runtime: to
    a float, or it raises [ValueError] (a number text that [float] refuses)
    or [ZeroDivisionError]; no [KeyError], [AttributeError] or
    [TypeError]. *)
Theorem arithmetic_evaluates
        (object : Type) (runtime : PyRuntime object) (e : expr) :
  arithmetic e ->
  (exists f, eval e = Ok (VFloat f)) \/
  eval e = Raise ValueError \/ eval e = Raise ZeroDivisionError.
Proof. apply eval_arithmetic. Qed.

Lemma arithmetic_evaluates_witness :
  (exists f,
      eval (runtime := core_runtime)
           (BinaryExpression (NumberExpression "1.5") "/"
                             (NumberExpression "0.0")) = Ok (VFloat f)) \/
  eval (runtime := core_runtime)
       (BinaryExpression (NumberExpression "1.5") "/"
                         (NumberExpression "0.0")) = Raise ValueError \/
  eval (runtime := core_runtime)
       (BinaryExpression (NumberExpression "1.5") "/"
                         (NumberExpression "0.0")) = Raise ZeroDivisionError.
Proof.
  apply (@arithmetic_evaluates core_object core_runtime).
  split; [|split; reflexivity].
  do 3 right. left. reflexivity.
Defined.

(** X16: on an input without letters the whole pipeline, on every
    runtime, gives a float or raises [IndexError], [ValueError] or
    [ZeroDivisionError]; short of the interpreter's limit on the depth of
    recursion, which the model leaves out and which a deeply nested input
    reaches, it does nothing else. *)
Theorem calculate_without_letters
        (object : Type) (runtime : PyRuntime object) (s : string) :
  string_forall no_letter s = true ->
  (exists f, calculate s = Ok (VFloat f)) \/
  calculate s = Raise IndexError \/
  calculate s = Raise ValueError \/
  calculate s = Raise ZeroDivisionError.
Proof.
  intro Hs. unfold calculate.
  destruct (parse (lex s) 0) as [[e n] | x |] eqn:E; cbn [bind].
  - assert (Ha : arithmetic e).
    { apply from_tokens_arithmetic with (s := s); [exact Hs|].
      unfold parse in E.
      destruct (provenance (lex s) (parse_fuel (lex s)))
        as (_ & _ & _ & _ & _ & _ & _ & H8 & _).
      exact (H8 0 e n E). }
    destruct (eval_arithmetic runtime e Ha) as [H | [H | H]]; auto.
  - unfold parse in E.
    destruct (@raises (lex s) (lex_left_brackets s) (parse_fuel (lex s)))
      as (_ & _ & _ & _ & _ & _ & _ & H8 & _).
    destruct (H8 0 x E) as [-> | ->]; auto.
  - now apply parse_fuel_enough in E.
Qed.

Lemma calculate_without_letters_witness :
  (exists f, calculate (runtime := core_runtime) "2*(3+4)" = Ok (VFloat f)) \/
  calculate (runtime := core_runtime) "2*(3+4)" = Raise IndexError \/
  calculate (runtime := core_runtime) "2*(3+4)" = Raise ValueError \/
  calculate (runtime := core_runtime) "2*(3+4)" = Raise ZeroDivisionError.
Proof.
  apply (@calculate_without_letters core_object core_runtime "2*(3+4)").
  reflexivity.
Defined.
